(** * RBniCS: the offline reduced-basis construction engine

    A shallow embedding of
    - [RBniCS/backends/basic/gram_schmidt.py]              (module [GramSchmidt]),
    - [RBniCS/reduction_methods/elliptic_coercive_rb_reduction.py]
                                                           (module [RB]),
    - [RBniCS/scm/reduction_methods/scm_decorated_reduction_method.py]
                                                           (module [SCM]),
    - the reduced mesh exercised by [tests/unit/test_reduced_mesh.py]
                                                           (module [ReducedMesh]),
    - [RBniCS/backends/fenics/wrapping/function_space.py]  (module [FunctionSpace]).

    Python objects that are mutated in place live in an explicit store;
    exceptions are an explicit outcome that keeps the state reached when the
    exception was raised; Python floats are binary64 numbers; a bare name
    that the module does not bind raises NameError where it is evaluated. *)

From Stdlib Require Import Floats.
From Stdlib Require Import Lia ZArith List Ascii String Bool.
From stdpp Require Import gmap strings list pretty.
Import ListNotations.

(** ** Python exceptions and outcomes *)

(** The exception classes the modelled code can raise, by their Python
    names.  [UserDefined] stands for any exception class a program defines
    itself; none of the modelled functions constructs one. *)
Inductive pyexn : Type :=
| AssertionError
| IndexError
| IOError
| NameError
| OSError
| TypeError
| ValueError
| ZeroDivisionError
| UserDefined (name : string).

(** A statement either completes or raises; in both cases the state that was
    reached is kept (Python does not roll mutations back). *)
Inductive outcome (S : Type) : Type :=
| Done (s : S)
| Raised (e : pyexn) (s : S).
Arguments Done {S} s.
Arguments Raised {S} e s.

Definition state_of {S : Type} (o : outcome S) : S :=
  match o with Done s => s | Raised _ s => s end.

Definition raises {S : Type} (o : outcome S) : Prop :=
  exists e s, o = Raised e s.

Definition bind {S : Type} (o : outcome S) (k : S -> outcome S) : outcome S :=
  match o with
  | Done s => k s
  | Raised e s => Raised e s
  end.

(** ** Tactics for binary64 comparisons

    [spec_cases] splits the specification floats of a goal by constructor and
    sign; [order_cases] settles what is left by the order of exponents and
    mantissas. *)

Ltac spec_cases :=
  repeat match goal with
    | x : spec_float |- _ => destruct x
    | s : bool |- _ => destruct s
    end;
  cbn in *; try discriminate; try reflexivity.

Ltac order_cases :=
  repeat match goal with
    | H : context [Z.compare ?a ?b] |- _ =>
        destruct (Z.compare_spec a b); subst
    | |- context [Z.compare ?a ?b] =>
        destruct (Z.compare_spec a b); subst
    | H : context [Pos.compare_cont Eq ?a ?b] |- _ =>
        change (Pos.compare_cont Eq a b) with (Pos.compare a b) in *;
        destruct (Pos.compare_spec a b); subst
    | |- context [Pos.compare_cont Eq ?a ?b] =>
        change (Pos.compare_cont Eq a b) with (Pos.compare a b) in *;
        destruct (Pos.compare_spec a b); subst
    end;
  cbn in *; try discriminate; try reflexivity; try lia.

(** ** Gram-Schmidt ([gram_schmidt.py]) *)

Module GramSchmidt.

Local Open Scope float_scope.

(** Basis functions are objects with an identity: [Z] is a Python list of
    references, and [b = Z[n_basis - 1]] aliases the last one. *)
Definition loc := nat.

Section Apply.

Context {V : Type}.

Definition heap := loc -> V.

Definition store (h : heap) (l : loc) (v : V) : heap :=
  fun l' => if Nat.eqb l' l then v else h l'.

(** The [backend] and the inner product [X] handed to the constructor.
    [transpose_X a b] is [transpose(a)*X*b], a Python [float]: a binary64
    number.  [idiv a s] is [a.vector()[:] /= s], the in-place division of the
    vector type, which is not part of the sources: it leaves the new value of
    the vector, or raises, as the vector type decides (also for a divisor
    that is zero, an infinity or NaN).  [vsub] and [vscale] are the vector
    operations in which the projection step is expressed. *)
Class Backend : Type := {
  transpose_X : V -> V -> float;
  idiv : V -> float -> outcome V;
  vsub : V -> V -> V;
  vscale : float -> V -> V
}.

(** The [wrapping] handed to the constructor: its projection step takes the
    references [b] and [Z[i]] and returns a reference. *)
Class Wrapping : Type := {
  gram_schmidt_projection_step : loc -> loc -> heap -> loc * heap
}.

(** Modelled from the spec: [wrapping.gram_schmidt_projection_step] is not
    part of the sources.  Section 4.1: "b <- b - (<b, Z_i>_X / <Z_i, Z_i>_X)
    . Z_i", performed in place on the object [b], which is returned.  The
    quotient is a quotient of binary64 numbers. *)
Definition projected `{Backend} (b z : V) : V :=
  vsub b (vscale (transpose_X b z / transpose_X z z) z).

(** Modelled from the spec: the same step on the store.  The object [b] is
    overwritten with the projected vector and [b] itself is returned
    ("operates in place"); no other object is written. *)
Definition in_place_projection `{Backend} (b z : loc) (h : heap) : loc * heap :=
  (b, store h b (projected (h b) (h z))).

(** A wrapping that keeps this contract. *)
Class WrappingContract (B : Backend) (W : Wrapping) : Prop := {
  projection_step_in_place : forall b z h,
      gram_schmidt_projection_step b z h = in_place_projection b z h
}.

Context {B : Backend} {W : Wrapping}.

(** [for i in range(n_basis - 1): b = step(b, X, Z[i], transpose)] *)
Fixpoint projection_loop (Z : list loc) (range : list nat) (b : loc) (h : heap)
  : loc * heap :=
  match range with
  | [] => (b, h)
  | i :: range' =>
      let '(b', h') := gram_schmidt_projection_step b (nth i Z b) h in
      projection_loop Z range' b' h'
  end.

(** [GramSchmidt.apply].  [Z[n_basis - 1]] on an empty list is [Z[-1]]: an
    IndexError.  [math.sqrt] raises ValueError on a negative argument (minus
    infinity included) and returns NaN on NaN and a zero on a zero; what the
    division then does is the vector type's.  Nothing is compared with a
    tolerance. *)
Definition apply (Z : list loc) (h : heap) : outcome heap :=
  let n_basis := length Z in
  match nth_error Z (n_basis - 1) with
  | None => Raised IndexError h
  | Some b0 =>
      let '(b, h1) := projection_loop Z (seq 0 (n_basis - 1)) b0 h in
      let s := transpose_X (h1 b) (h1 b) in
      if s <? 0 then Raised ValueError h1
      else match idiv (h1 b) (sqrt s) with
           | Done v => Done (store h1 b v)
           | Raised e v => Raised e (store h1 b v)
           end
  end.

(** The candidate after the projection steps, before normalization, the
    square of its X-norm as the backend computes it, and the divisor. *)
Definition residual (Z : list loc) (h : heap) : V :=
  let b0 := List.last Z 0%nat in
  let '(b, h1) := projection_loop Z (seq 0 (length Z - 1)) b0 h in
  h1 b.

Definition residual_sq (Z : list loc) (h : heap) : float :=
  transpose_X (residual Z h) (residual Z h).

Definition residual_norm (Z : list loc) (h : heap) : float :=
  sqrt (residual_sq Z h).

(** The Gram matrix of the objects listed in [Z], entry [(i, j)]. *)
Definition gram (Z : list loc) (h : heap) (i j : nat) : float :=
  transpose_X (h (nth i Z 0%nat)) (h (nth j Z 0%nat)).

(** The successive projections on values. *)
Definition project_values (v : V) (zs : list V) : V :=
  fold_left projected zs v.

(** The tolerance of the orthonormality test: the binary64 number nearest
    to 1e-10. *)
Definition tolerance : float := 0x1.b7cdfd9d7bdbbp-34.

End Apply.

Arguments heap V : clear implicits.
Arguments Backend V : clear implicits.
Arguments Wrapping V : clear implicits.

(** *** Concrete backends *)

(** The plane with the Euclidean inner product ([X] the identity), vectors
    as pairs of binary64 numbers divided componentwise (IEEE 754: no
    exception, as on numpy arrays). *)
Definition plane : Type := float * float.

#[export] Instance plane_backend : Backend plane := {|
  transpose_X := fun a b => fst a * fst b + snd a * snd b;
  idiv := fun a s => Done (fst a / s, snd a / s);
  vsub := fun a b => (fst a - fst b, snd a - snd b);
  vscale := fun k a => (k * fst a, k * snd a)
|}.

#[export] Instance plane_wrapping : Wrapping plane := {|
  gram_schmidt_projection_step := in_place_projection
|}.

(** Two objects: the unit vector (1, 0) already in the basis, and the
    snapshot (1, 1) just appended. *)
Definition plane_Z : list loc := [0%nat; 1%nat].

Definition plane_heap : heap plane :=
  fun l => if Nat.eqb l 0 then (1, 0) else (1, 1).

(** A wrapping whose projection step does not work in place: the projected
    vector goes to another object, at reference 2, which is returned. *)
Definition copying_wrapping : Wrapping plane := {|
  gram_schmidt_projection_step :=
    fun b z h => (2%nat, store h 2%nat (projected (h b) (h z)))
|}.

(** The plane with the inner product [X = [[1, 0.5], [0.5, 1]]]
    (symmetric, positive definite), [transpose(a)*X*b] computed as the
    product of [a] with [X*b]. *)
Definition skew_backend : Backend plane := {|
  transpose_X := fun a b =>
    fst a * (fst b + 0.5 * snd b) + snd a * (0.5 * fst b + snd b);
  idiv := fun a s => Done (fst a / s, snd a / s);
  vsub := fun a b => (fst a - fst b, snd a - snd b);
  vscale := fun k a => (k * fst a, k * snd a)
|}.

Definition skew_wrapping : Wrapping plane := {|
  gram_schmidt_projection_step := @in_place_projection plane skew_backend
|}.

(** The unit vector (1, 0), of X-norm 1, and the snapshot (1, 1e-7): the
    binary64 number nearest to 1e-7. *)
Definition skew_heap : heap plane :=
  fun l => if Nat.eqb l 0 then (1, 0) else (1, 0x1.ad7f29abcaf48p-24).

(** The plane with a vector type whose division raises at a zero divisor
    (as a division computed through [1.0 / s] on Python floats does). *)
Definition raising_backend : Backend plane := {|
  transpose_X := fun a b => fst a * fst b + snd a * snd b;
  idiv := fun a s =>
    if s =? 0 then Raised ZeroDivisionError a else Done (fst a / s, snd a / s);
  vsub := fun a b => (fst a - fst b, snd a - snd b);
  vscale := fun k a => (k * fst a, k * snd a)
|}.

Definition raising_wrapping : Wrapping plane := {|
  gram_schmidt_projection_step := @in_place_projection plane raising_backend
|}.

(** The unit vector (1, 0) and a snapshot (2, 0) that is a multiple of it. *)
Definition colinear_heap : heap plane :=
  fun l => if Nat.eqb l 0 then (1, 0) else (2, 0).

(** The line, [X] the 1x1 identity, numbers divided as binary64 numbers. *)
#[export] Instance line_backend : Backend float := {|
  transpose_X := fun a b => a * b;
  idiv := fun a s => Done (a / s);
  vsub := fun a b => a - b;
  vscale := fun k a => k * a
|}.

#[export] Instance line_wrapping : Wrapping float := {|
  gram_schmidt_projection_step := in_place_projection
|}.

(** A first snapshot of X-norm 5e-11 (the binary64 number nearest to it),
    below the tolerance. *)
Definition line_Z : list loc := [0%nat].

Definition line_heap : heap float := fun _ => 0x1.b7cdfd9d7bdbbp-35.

(** A first snapshot of X-norm 1e200 (the binary64 number nearest to it):
    its square is beyond the largest binary64 number. *)
Definition huge_heap : heap float := fun _ => 0x1.4e718d7d7625ap+664.

End GramSchmidt.
(** ** The reduced-basis reduction method ([elliptic_coercive_rb_reduction.py]) *)

Module RB.

Local Open Scope float_scope.

(** A parameter is a tuple of floats. *)
Definition Mu : Type := list float.

(** *** Names

    The names a function of the module can reach without a qualifier: those
    the module binds at its top level -- its imports (lines 25 to 30) and the
    class it defines -- and the built-in names of Python 2 it uses.  The
    methods of the class, [save_greedy_post_processing_file] included, are
    attributes of the class and not among them. *)
Definition module_globals : list string :=
  ["print_function"; "os"; "shutil"; "random"; "GramSchmidt";
   "EllipticCoerciveBase"; "EllipticCoerciveRBBase"].

Definition builtins : list string :=
  ["file"; "len"; "open"; "print"; "range"; "str"].

(** Whether the evaluation of a bare name finds a binding; it raises
    NameError otherwise. *)
Definition bound (name : string) : bool :=
  existsb (String.eqb name) (module_globals ++ builtins).

(** *** Files *)

Record filesystem : Type := {
  dirs : gset string;
  files : gmap string string
}.

(** [os.path.exists] *)
Definition path_exists (path : string) (fs : filesystem) : bool :=
  bool_decide (path ∈ dirs fs) || bool_decide (is_Some (files fs !! path)).

(** The directories on the way to a path: the prefixes of the path that
    end before a separator.  Paths are taken as they are written. *)
Fixpoint ancestors_from (prefix rest : string) : list string :=
  match rest with
  | EmptyString => []
  | String c rest' =>
      (if Ascii.eqb c "/"%char && negb (String.eqb prefix EmptyString)
       then [prefix] else [])
      ++ ancestors_from (prefix +:+ String c EmptyString) rest'
  end.

Definition ancestors (path : string) : list string :=
  ancestors_from EmptyString path.

Definition is_file (path : string) (fs : filesystem) : bool :=
  bool_decide (is_Some (files fs !! path)).

(** [os.makedirs]: the directory is created together with the missing
    directories on the way to it; OSError when the path exists already or
    when a file is on the way, and nothing is created then. *)
Definition makedirs (path : string) (fs : filesystem) : outcome filesystem :=
  if path_exists path fs || existsb (fun d => is_file d fs) (ancestors path)
  then Raised OSError fs
  else Done {| dirs := list_to_set (path :: ancestors path) ∪ dirs fs;
               files := files fs |}.

Definition contents (path : string) (fs : filesystem) : string :=
  default EmptyString (files fs !! path).

(** [open(directory + "/" + name, "a")]: the file is created when it does
    not exist, and an existing one keeps its contents; the directory has to
    exist. *)
Definition open_append (directory name : string) (fs : filesystem)
  : outcome filesystem :=
  let path := (directory +:+ "/" +:+ name)%string in
  if bool_decide (directory ∈ dirs fs)
  then Done {| dirs := dirs fs; files := <[path := contents path fs]> (files fs) |}
  else Raised IOError fs.

(** What a name in the body of [save_greedy_post_processing_file] can
    denote: a file object returned by [open], or Python 2's built-in type
    [file]. *)
Inductive pyobject : Type :=
| FileObject (path : string)
| FileType.

(** [target.write(text)].  On a file object opened for appending, the text
    goes to the end of the file.  [file.write(text)] on the built-in type is
    an unbound method called on a [str]: TypeError, and nothing is written. *)
Definition write (target : pyobject) (text : string) (fs : filesystem)
  : outcome filesystem :=
  match target with
  | FileObject path =>
      Done {| dirs := dirs fs;
              files := <[path := (contents path fs +:+ text)%string]> (files fs) |}
  | FileType => Raised TypeError fs
  end.

(** *** Random draws *)

(** [random.random()] returns [k / 2^53] for a 53-bit integer [k] drawn
    uniformly; a draw is represented by its [k]. *)
Definition draw : Type := Z.

Definition is_draw (k : draw) : Prop := (0 <= k < 2 ^ 53)%Z.

(** [random.random() >= 0.5], exactly: [k / 2^53 >= 1/2]. *)
Definition ge_half (k : draw) : bool := (2 ^ 52 <=? k)%Z.

(** The other half of the sample space. *)
Definition mirror (k : draw) : draw :=
  if ge_half k then (k - 2 ^ 52)%Z else (k + 2 ^ 52)%Z.

(** *** The reduction method and its collaborators *)

Section Method.

(** The truth problem, the reduced problem and the basis are collaborators:
    [World] is their state, [Snapshot] a truth solution. *)
Context {World Snapshot : Type}.

Class Collaborators : Type := {
  (** [EllipticCoerciveReductionMethodBase._init_offline], the method the
      first statement of [_init_offline] names *)
  parent_init_offline : World -> bool * World;
  error_estimation_folder : string;
  (** [truth_problem.solve()] at the current [mu] *)
  truth_problem_solve : Mu -> World -> Snapshot * World;
  export_solution : Snapshot -> string -> World -> World;
  postprocess_snapshot : Snapshot -> World -> World;
  Z_enrich : Snapshot -> World -> World;
  GS_apply : World -> World;
  Z_save : World -> World;
  build_reduced_operators : World -> World;
  (** [_solve(N)] at the current [mu] *)
  reduced_solve : nat -> Mu -> World -> World;
  build_error_estimation_matrices : World -> World;
  (** [get_delta()], [get_delta_output()]: the bounds for the last solve *)
  get_delta : World -> float;
  get_delta_output : World -> float;
  (** [compute_error(N, True)] at the current [mu] *)
  compute_error : nat -> Mu -> World -> (float * float) * World;
  (** [str] on a float and on a parameter *)
  str_float : float -> string;
  str_mu : Mu -> string
}.

Context {collaborators : Collaborators}.

Inductive event : Type :=
| TruthSolve (mu : Mu)
| ExportSolution (name : string)
| PostprocessSnapshot
| Enrich
| GramSchmidtApply
| SaveBasis
| IncrementN (N : nat)
| BuildReducedOperators
| ReducedSolve (N : nat) (mu : Mu)
| BuildErrorEstimationMatrices
| GreedyStep (N : nat)
| SetMu (mu : Mu)
| GetDelta (delta : float).

(** The reduction method object.  [self.N] and [self.reduced_problem.N] are
    read as one attribute, [N]; [draws] and [drawn] are the stream of the
    global [random] generator and the number of draws made so far; [trace]
    records the calls made to the collaborators, in order. *)
Record state : Type := {
  world : World;
  mu : Mu;
  N : nat;
  Nmax : nat;
  xi_train : list Mu;
  draws : nat -> draw;
  drawn : nat;
  fs : filesystem;
  trace : list event
}.

Definition snapshots_folder : string := "snapshots".
Definition post_processing_folder : string := "post_processing".

Definition with_world (w : World) (st : state) : state :=
  {| world := w; mu := mu st; N := N st; Nmax := Nmax st;
     xi_train := xi_train st; draws := draws st; drawn := drawn st;
     fs := fs st; trace := trace st |}.

Definition with_fs (f : filesystem) (st : state) : state :=
  {| world := world st; mu := mu st; N := N st; Nmax := Nmax st;
     xi_train := xi_train st; draws := draws st; drawn := drawn st;
     fs := f; trace := trace st |}.

Definition log (ev : event) (st : state) : state :=
  {| world := world st; mu := mu st; N := N st; Nmax := Nmax st;
     xi_train := xi_train st; draws := draws st; drawn := drawn st;
     fs := fs st; trace := trace st ++ [ev] |}.

(** A call to a collaborator that only changes the collaborators' state. *)
Definition call (ev : event) (f : World -> World) (st : state) : state :=
  log ev (with_world (f (world st)) st).

(** [setmu(m)] *)
Definition setmu (m : Mu) (st : state) : state :=
  log (SetMu m)
    {| world := world st; mu := m; N := N st; Nmax := Nmax st;
       xi_train := xi_train st; draws := draws st; drawn := drawn st;
       fs := fs st; trace := trace st |}.

(** [reduced_problem.N += 1] *)
Definition increment_N (st : state) : state :=
  log (IncrementN (S (N st)))
    {| world := world st; mu := mu st; N := S (N st); Nmax := Nmax st;
       xi_train := xi_train st; draws := draws st; drawn := drawn st;
       fs := fs st; trace := trace st |}.

(** [random.random()] *)
Definition random (st : state) : draw * state :=
  (draws st (drawn st),
   {| world := world st; mu := mu st; N := N st; Nmax := Nmax st;
      xi_train := xi_train st; draws := draws st; drawn := S (drawn st);
      fs := fs st; trace := trace st |}).

(** [save_greedy_post_processing_file].  Each [with] block binds the opened
    file to [outfile], and its body writes through the name [file]: the
    built-in type (the module binds no such name; under Python 3 the name is
    unbound, a NameError at the same place). *)
Definition save_greedy_post_processing_file
  (N : nat) (delta_max : float) (mu_greedy : Mu) (directory : string)
  (fs : filesystem) : outcome filesystem :=
  let file := FileType in
  bind (open_append directory "delta_max.txt" fs) (fun fs =>
  let outfile := FileObject (directory +:+ "/" +:+ "delta_max.txt")%string in
  bind (write file (pretty N +:+ " " +:+ str_float delta_max)%string fs) (fun fs =>
  bind (open_append directory "mu_greedy.txt" fs) (fun fs =>
  let outfile := FileObject (directory +:+ "/" +:+ "mu_greedy.txt")%string in
  write file (str_mu mu_greedy) fs))).

(** [setmu(mu); _solve(N); delta = get_delta()] *)
Definition evaluate_bound (m : Mu) (st : state) : float * state :=
  let st := setmu m st in
  let st := call (ReducedSolve (N st) m) (reduced_solve (N st) m) st in
  let delta := get_delta (world st) in
  (delta, log (GetDelta delta) st).

(** The body of the loop of [greedy], on [(delta_max, munew)] and the
    state.  [or] and [and] short-circuit: a draw is made only on a tie. *)
Definition greedy_body (acc : float * option Mu * state) (m : Mu)
  : float * option Mu * state :=
  let '(delta_max, munew, st) := acc in
  let '(delta, st) := evaluate_bound m st in
  if delta_max <? delta then (delta, Some m, st)
  else if delta =? delta_max then
    let '(k, st) := random st in
    if ge_half k then (delta, Some m, st) else (delta_max, munew, st)
  else (delta_max, munew, st).

Definition greedy_loop (st : state) : float * option Mu * state :=
  fold_left greedy_body (xi_train st) (-1, None, st).

(** [greedy].  Its last statement calls [save_greedy_post_processing_file]
    by its bare name: the name is looked up before any argument is evaluated,
    and it is not bound (the function is a static method of the class, reached
    as [self.save_greedy_post_processing_file]): NameError, after
    [setmu(munew)] and without entering the function. *)
Definition greedy (st : state) : outcome state :=
  let st := log (GreedyStep (N st)) st in
  let '(delta_max, munew, st) := greedy_loop st in
  match munew with
  | None => Raised AssertionError st
  | Some m =>
      let st := setmu m st in
      if bound "save_greedy_post_processing_file"
      then match save_greedy_post_processing_file (N st) delta_max m
                   post_processing_folder (fs st) with
           | Done f => Done (with_fs f st)
           | Raised e f => Raised e (with_fs f st)
           end
      else Raised NameError st
  end.

(** A call that returns a value or raises. *)
Inductive returned (A : Type) : Type :=
| Returns (a : A) (st : state)
| Raises (e : pyexn) (st : state).
Arguments Returns {A} a st.
Arguments Raises {A} e st.

(** [if not os.path.exists(f): os.makedirs(f)] *)
Definition create (f : string) (fs : filesystem) : outcome filesystem :=
  if negb (path_exists f fs) then makedirs f fs else Done fs.

(** [_init_offline].  Its first statement evaluates the name
    [EllipticCoerciveReductionMethodBase], which the module does not bind
    (it imports [EllipticCoerciveBase]): NameError, before the parent's
    method is called and before any folder is looked at. *)
Definition _init_offline (st : state) : returned bool :=
  if negb (bound "EllipticCoerciveReductionMethodBase") then Raises NameError st
  else
    let '(need_to_do_offline_stage, w) := parent_init_offline (world st) in
    let st := with_world w st in
    let checked :=
      if negb (path_exists error_estimation_folder (fs st))
      then if need_to_do_offline_stage
           then makedirs error_estimation_folder (fs st)
           else Raised AssertionError (fs st)
      else Done (fs st) in
    match bind checked (fun fs =>
          bind (create snapshots_folder fs) (create post_processing_folder)) with
    | Done fs => Returns need_to_do_offline_stage (with_fs fs st)
    | Raised e fs => Raises e (with_fs fs st)
    end.

(** The body of the loop of [offline]. *)
Definition offline_iteration (run : nat) (st : state) : outcome state :=
  let '(snapshot, w) := truth_problem_solve (mu st) (world st) in
  let st := log (TruthSolve (mu st)) (with_world w st) in
  let name := (snapshots_folder +:+ "truth_" +:+ pretty run)%string in
  let st := call (ExportSolution name) (export_solution snapshot name) st in
  let st := call PostprocessSnapshot (postprocess_snapshot snapshot) st in
  let st := call Enrich (Z_enrich snapshot) st in
  let st := call GramSchmidtApply GS_apply st in
  let st := call SaveBasis Z_save st in
  let st := increment_N st in
  let st := call BuildReducedOperators build_reduced_operators st in
  let st := call (ReducedSolve (N st) (mu st)) (reduced_solve (N st) (mu st)) st in
  let st := call BuildErrorEstimationMatrices build_error_estimation_matrices st in
  greedy st.

(** [for run in runs: body], left by the first exception. *)
Fixpoint for_each (runs : list nat) (body : nat -> state -> outcome state)
  (st : state) : outcome state :=
  match runs with
  | [] => Done st
  | run :: runs' =>
      match body run st with
      | Done st' => for_each runs' body st'
      | Raised e st' => Raised e st'
      end
  end.

(** [offline] *)
Definition offline (st : state) : outcome state :=
  match _init_offline st with
  | Raises e st => Raised e st
  | Returns need_to_do_offline_stage st =>
      if negb need_to_do_offline_stage then Done st
      else for_each (seq 0 (Nmax st)) offline_iteration st
  end.

(** The bounds the loop of [greedy] computes, in the order of the training
    set: each solve starts from the collaborators' state the previous one
    left. *)
Fixpoint observed_bounds (n : nat) (w : World) (mus : list Mu) : list float :=
  match mus with
  | [] => []
  | m :: mus' =>
      let w' := reduced_solve n m w in
      get_delta w' :: observed_bounds n w' mus'
  end.

(** What the loop of [greedy] holds after the parameters [mus], whose
    bounds were [obs]: nothing yet, or a parameter of [mus] whose bound
    [delta_max] no other bound exceeds. *)
Definition selected (mus : list Mu) (obs : list float)
  (delta_max : float) (munew : option Mu) : Prop :=
  (mus = [] /\ munew = None /\ delta_max = -1) \/
  (exists k m,
      mus !! k = Some m /\ obs !! k = Some delta_max /\ munew = Some m /\
      forall d, In d obs -> (d <=? delta_max) = true).

(** The number of truth solves in a trace: the iterations of [offline] that
    were started. *)
Definition truth_solves (tr : list event) : nat :=
  length (List.filter (fun ev => match ev with TruthSolve _ => true | _ => false end) tr).

(** What the evaluation of bounds and the draws leave unchanged. *)
Definition keeps (st st' : state) : Prop :=
  N st' = N st /\ Nmax st' = Nmax st /\ xi_train st' = xi_train st /\
  fs st' = fs st /\ draws st' = draws st /\
  truth_solves (trace st') = truth_solves (trace st).

(** The calls the loop of [greedy] makes for the parameters [mus]: for each
    one, in order, [setmu], [_solve(N)] and [get_delta]. *)
Fixpoint loop_events (n : nat) (w : World) (mus : list Mu) : list event :=
  match mus with
  | [] => []
  | m :: mus' =>
      let w' := reduced_solve n m w in
      [SetMu m; ReducedSolve n m; GetDelta (get_delta w')] ++ loop_events n w' mus'
  end.

(** No bound is equal to [-1.0] or to an earlier bound: the test
    [delta == delta_max] can never hold. *)
Definition no_tie (obs : list float) : Prop :=
  (forall d, In d obs -> (d =? -1) = false) /\
  (forall i j d d', (i < j)%nat -> obs !! i = Some d -> obs !! j = Some d' ->
                    (d' =? d) = false).

(** Position [k] holds a maximum of [obs], and every bound after it (when
    [last] is set) or before it (otherwise) is strictly smaller: the last, or
    the first, of the positions of the maximum. *)
Definition extreme_maximum (last : bool) (obs : list float) (k : nat)
  (delta_max : float) : Prop :=
  obs !! k = Some delta_max /\
  (forall d, In d obs -> (d <=? delta_max) = true) /\
  (forall j d, (if last then k < j else j < k)%nat -> obs !! j = Some d ->
               (d <? delta_max) = true).

(** What the loop of [greedy] holds after the parameters [mus] when every
    draw falls on the same side of 0.5: nothing yet, or the parameter at the
    last (first) position of the maximum. *)
Definition selected_extreme (last : bool) (mus : list Mu) (obs : list float)
  (delta_max : float) (munew : option Mu) : Prop :=
  (mus = [] /\ munew = None /\ delta_max = -1) \/
  (exists k m,
      mus !! k = Some m /\ munew = Some m /\ extreme_maximum last obs k delta_max).

(** *** Error analysis *)

(** The six [np.zeros((N, len(xi_test)))] arrays; every access of the code
    is within their bounds. *)
Definition table : Type := nat -> nat -> float.

Definition zeros : table := fun _ _ => 0.

Definition set_entry (t : table) (n run : nat) (v : float) : table :=
  fun n' run' => if Nat.eqb n' n && Nat.eqb run' run then v else t n' run'.

Record analysis : Type := {
  error_u : table;
  delta_u : table;
  effectivity_u : table;
  error_s : table;
  delta_s : table;
  effectivity_s : table
}.

(** The body of the inner loop, [n = 0, 1, ... N - 1]; [/] is the division
    of [numpy.float64]: IEEE 754, no exception on a zero divisor. *)
Definition error_analysis_body (run n : nat) (acc : analysis * state)
  : analysis * state :=
  let '(a, st) := acc in
  let '((current_error_u, current_error_s), w) :=
    compute_error (S n) (mu st) (world st) in
  let st := with_world w st in
  let error_u := set_entry (error_u a) n run current_error_u in
  let delta_u := set_entry (delta_u a) n run (get_delta (world st)) in
  let effectivity_u :=
    set_entry (effectivity_u a) n run (delta_u n run / error_u n run) in
  let error_s := set_entry (error_s a) n run current_error_s in
  let delta_s := set_entry (delta_s a) n run (get_delta_output (world st)) in
  let effectivity_s :=
    set_entry (effectivity_s a) n run (delta_s n run / error_s n run) in
  ({| error_u := error_u; delta_u := delta_u; effectivity_u := effectivity_u;
      error_s := error_s; delta_s := delta_s; effectivity_s := effectivity_s |},
   st).

(** Entry [(n, run)] of both effectivity arrays holds the quotient of the
    recorded bound by the recorded error. *)
Definition filled (a : analysis) (n run : nat) : Prop :=
  effectivity_u a n run = delta_u a n run / error_u a n run /\
  effectivity_s a n run = delta_s a n run / error_s a n run.

(** The body of the outer loop. *)
Definition error_analysis_run (xi_test : list Mu) (N : nat) (acc : analysis * state)
  (run : nat) : analysis * state :=
  let '(a, st) := acc in
  let st := setmu (nth run xi_test []) st in
  fold_left (fun acc n => error_analysis_body run n acc) (seq 0 N) (a, st).

(** The two nested loops of [error_analysis] (lines 212 to 226), on arrays
    of zeros. *)
Definition error_analysis_loops (xi_test : list Mu) (N : nat) (st : state)
  : analysis * state :=
  let a := {| error_u := zeros; delta_u := zeros; effectivity_u := zeros;
              error_s := zeros; delta_s := zeros; effectivity_s := zeros |} in
  fold_left (error_analysis_run xi_test N) (seq 0 (length xi_test)) (a, st).

(** [error_analysis].  The arrays are made with [np.zeros], and the module
    does not bind [np]: NameError at the first of them, before the loops.
    Were [np] bound to numpy, the statistics printed after the loops would
    still raise ValueError for an empty test set and a positive [N]:
    [np.min] of an empty row. *)
Definition error_analysis (xi_test : list Mu) (N_arg : option nat) (st : state)
  : returned analysis :=
  let N := match N_arg with None => N st | Some N => N end in
  if negb (bound "np") then Raises NameError st
  else
    let '(a, st) := error_analysis_loops xi_test N st in
    if Nat.ltb 0%nat N && Nat.eqb (length xi_test) 0%nat
    then Raises ValueError st
    else Returns a st.

End Method.

Arguments Collaborators World Snapshot : clear implicits.
Arguments state World : clear implicits.
Arguments returned World A : clear implicits.
Arguments Returns {World A} a st.
Arguments Raises {World A} e st.

(** *** A small instance

    The collaborators' state is the parameter of the last reduced solve; the
    error bound of a parameter is its first coordinate, and the true error is
    zero. *)
#[export] Instance toy : Collaborators Mu unit := {|
  parent_init_offline := fun w => (true, w);
  error_estimation_folder := "error_estimation";
  truth_problem_solve := fun _ w => (tt, w);
  export_solution := fun _ _ w => w;
  postprocess_snapshot := fun _ w => w;
  Z_enrich := fun _ w => w;
  GS_apply := fun w => w;
  Z_save := fun w => w;
  build_reduced_operators := fun w => w;
  reduced_solve := fun _ m _ => m;
  build_error_estimation_matrices := fun w => w;
  get_delta := fun w => hd 0 w;
  get_delta_output := fun w => hd 0 w;
  compute_error := fun _ m _ => ((0, 0), m);
  str_float := fun _ => "?";
  str_mu := fun _ => "?"
|}.

Definition empty_fs : filesystem := {| dirs := ∅; files := ∅ |}.

Definition toy_state (Nmax : nat) (xi_train : list Mu) : state Mu :=
  {| world := []; mu := [1]; N := 0; Nmax := Nmax; xi_train := xi_train;
     draws := fun _ => 0%Z; drawn := 0; fs := empty_fs; trace := [] |}.

Definition toy_train : list Mu := [[0.5]; [2]; [1]].

(** A training set on which the largest bound is attained twice. *)
Definition tie_train : list Mu := [[2; 0]; [0.5]; [2; 1]].

End RB.

(** ** The SCM-decorated reduction method ([scm_decorated_reduction_method.py]) *)

Module SCM.

Import RB.

Section Decorated.

(** [Method] is the state of the decorated reduction method object, its
    truth problem and its SCM reduction included. *)
Context {Method : Type}.

(** What the decorator is applied to: the truth problem's [mu] and
    [set_mu], the SCM reduction's [offline], and [offline] of the decorated
    class [DifferentialProblemReductionMethod_DerivedClass]. *)
Class Decorated : Type := {
  truth_problem_mu : Method -> Mu;
  truth_problem_set_mu : Mu -> Method -> Method;
  SCM_reduction_offline : Method -> outcome Method;
  parent_offline : Method -> outcome Method
}.

(** [set_mu] sets what [mu] reads. *)
Class SetMuLaw (D : Decorated) : Prop := {
  mu_set_mu : forall m s, truth_problem_mu (truth_problem_set_mu m s) = m
}.

Context {D : Decorated}.

(** [SCMDecoratedReductionMethod_Class.offline].  [tuple(list(mu))] is a
    fresh immutable tuple: [bak_first_mu] is the value [mu] had, whatever is
    done afterwards to the object [mu] referred to. *)
Definition offline (s : Method) : outcome Method :=
  let bak_first_mu := truth_problem_mu s in
  match SCM_reduction_offline s with
  | Raised e s => Raised e s
  | Done s => parent_offline (truth_problem_set_mu bak_first_mu s)
  end.

End Decorated.

Arguments Decorated Method : clear implicits.

(** The decorator applied to the reduced-basis method of [RB], with an SCM
    offline phase that leaves another parameter set. *)
#[export] Instance toy_decorated : Decorated (state Mu) := {|
  truth_problem_mu := mu;
  truth_problem_set_mu := setmu;
  SCM_reduction_offline := fun s => Done (setmu [7; 7]%float s);
  parent_offline := RB.offline
|}.

End SCM.

(** ** The reduced mesh (exercised by [tests/unit/test_reduced_mesh.py]) *)

Module ReducedMesh.

(** Modelled from the spec: the class [ReducedMesh] is not part of the
    sources.  A function space over the mesh is given by the global DOFs each
    cell carries (cells are numbered from 0); a DOF tuple has one DOF per
    associated function space. *)
Definition FunctionSpace : Type := list (list nat).

(** Modelled from the spec: the state of [ReducedMesh] (section 3, "Reduced
    mesh state"): the associated function spaces, the accumulated cell set,
    and the recorded original and reduced DOF index sequences. *)
Record state : Type := {
  V : list FunctionSpace;
  reduced_mesh_cells : gset nat;
  reduced_mesh_dofs_list : list (list nat);
  reduced_mesh_reduced_dofs_list : list (list nat)
}.

(** Modelled from the spec: [ReducedMesh((V, V))], the state Empty. *)
Definition ReducedMesh (spaces : list FunctionSpace) : state :=
  {| V := spaces; reduced_mesh_cells := ∅;
     reduced_mesh_dofs_list := []; reduced_mesh_reduced_dofs_list := [] |}.

(** Modelled from the spec: [get_dofs_list()] and [get_reduced_dofs_list()]
    "return the recorded original and reduced DOF index sequences, in append
    order". *)
Definition get_dofs_list (s : state) : list (list nat) :=
  reduced_mesh_dofs_list s.

Definition get_reduced_dofs_list (s : state) : list (list nat) :=
  reduced_mesh_reduced_dofs_list s.

(** Modelled from the spec: "locate the mesh cell(s) touching that DOF in
    its associated function space". *)
Definition cells_touching (space : FunctionSpace) (dof : nat) : gset nat :=
  list_to_set
    (List.filter (fun c => bool_decide (dof ∈ nth c space []))
       (seq 0 (length space))).

(** The cells touching one of the DOFs of a tuple, each DOF in its own
    function space. *)
Fixpoint cells_of (spaces : list FunctionSpace) (dofs : list nat) : gset nat :=
  match spaces, dofs with
  | space :: spaces', dof :: dofs' =>
      cells_touching space dof ∪ cells_of spaces' dofs'
  | _, _ => ∅
  end.

(** Modelled from the spec: "rebuild the reduced function space(s) by
    restricting to the accumulated cell set", "deterministically from the
    accumulated cell set": the DOFs of the accumulated cells are renumbered in
    the order in which the cells, by increasing number, first carry them. *)
Definition active_dofs (space : FunctionSpace) (cells : gset nat) : list nat :=
  remove_dups
    (concat (map (fun c => nth c space [])
               (List.filter (fun c => bool_decide (c ∈ cells))
                  (seq 0 (length space))))).

Definition reduced_dof (space : FunctionSpace) (cells : gset nat) (dof : nat) : nat :=
  default 0%nat (fst <$> list_find (fun d => d = dof) (active_dofs space cells)).

Fixpoint reduced_dofs (spaces : list FunctionSpace) (cells : gset nat)
  (dofs : list nat) : list nat :=
  match spaces, dofs with
  | space :: spaces', dof :: dofs' =>
      reduced_dof space cells dof :: reduced_dofs spaces' cells dofs'
  | _, _ => []
  end.

(** Modelled from the spec: [get_reduced_function_spaces()], per coordinate
    the current restricted space: its cells are the accumulated cells, its
    DOFs the reduced numbers. *)
Definition get_reduced_function_spaces (s : state) : list FunctionSpace :=
  map (fun space =>
         map (fun c => map (reduced_dof space (reduced_mesh_cells s)) (nth c space []))
           (List.filter (fun c => bool_decide (c ∈ reduced_mesh_cells s))
              (seq 0 (length space))))
    (V s).

(** Modelled from the spec: [append(dofs)] (section 4.3): "the operation is
    idempotent if the exact tuple was already added"; otherwise "add all such
    cells to the accumulated cell set if not already present, then rebuild the
    reduced function space(s) by restricting to the accumulated cell set, and
    append the (possibly renumbered) reduced DOF index for this coordinate to a
    reduced-DOF list". *)
Definition append (s : state) (dofs : list nat) : state :=
  if bool_decide (dofs ∈ reduced_mesh_dofs_list s) then s
  else
    let cells := reduced_mesh_cells s ∪ cells_of (V s) dofs in
    {| V := V s;
       reduced_mesh_cells := cells;
       reduced_mesh_dofs_list := reduced_mesh_dofs_list s ++ [dofs];
       reduced_mesh_reduced_dofs_list :=
         reduced_mesh_reduced_dofs_list s ++ [reduced_dofs (V s) cells dofs] |}.

(** The states a reduced mesh goes through: Empty, then Growing by [append]. *)
Inductive reachable (spaces : list FunctionSpace) : state -> Prop :=
| reachable_empty : reachable spaces (ReducedMesh spaces)
| reachable_append s dofs :
    reachable spaces s -> reachable spaces (append s dofs).

(** A strip of three triangles, with one DOF per vertex. *)
Definition strip : FunctionSpace := [[0; 1; 2]; [1; 2; 3]; [2; 3; 4]]%nat.

Definition grown : state :=
  append (append (ReducedMesh [strip; strip]) [4; 4]%nat) [3; 3]%nat.

End ReducedMesh.

(** ** String-named components of function spaces ([function_space.py]) *)

Module FunctionSpace.

(** The Python values the module inspects with [isinstance] and [is None]:
    component names, indices and their containers. *)
#[local] Unset Elimination Schemes.
Inductive pyvalue : Type :=
| PyNone
| PyInt (n : Z)
| PyStr (s : string)
| PyTuple (l : list pyvalue)
| PyList (l : list pyvalue).
#[local] Set Elimination Schemes.

(** An argument that is either such a value or a [dict] from names to
    indices. *)
Inductive pyarg : Type :=
| Value (v : pyvalue)
| Dict (d : gmap string pyvalue).

(** The [index] argument of [_init_component_to_index__recursive]: the [int]
    that [enumerate] gives at the top level, or the [list] built under a
    tuple. *)
Inductive index : Type :=
| IndexInt (n : nat)
| IndexList (l : list nat).

(** [full_index] before [subindex] is appended: [append] on an [int],
    [extend] on a [list]. *)
Definition full_index_of (i : index) : list nat :=
  match i with
  | IndexInt n => [n]
  | IndexList l => l
  end.

(** What is stored for a name: [tuple(index)] for a [list], the [int] itself
    otherwise. *)
Definition stored (i : index) : pyvalue :=
  match i with
  | IndexInt n => PyInt (Z.of_nat n)
  | IndexList l => PyTuple (map (fun n => PyInt (Z.of_nat n)) l)
  end.

(** [_init_component_to_index__recursive].  The dictionary is updated in
    place: an assertion that fails leaves in it what was stored before. *)
Fixpoint _init_component_to_index__recursive
  (components : pyvalue) (component_to_index : gmap string pyvalue)
  (index : index) {struct components} : outcome (gmap string pyvalue) :=
  match components with
  | PyStr s => Done (<[s := stored index]> component_to_index)
  | PyList l =>
      (fix for_component (l : list pyvalue) (d : gmap string pyvalue)
         : outcome (gmap string pyvalue) :=
         match l with
         | [] => Done d
         | component :: l' =>
             match _init_component_to_index__recursive component d index with
             | Done d' => for_component l' d'
             | Raised e d' => Raised e d'
             end
         end) l component_to_index
  | PyTuple l =>
      (fix for_subcomponent (l : list pyvalue) (subindex : nat)
         (d : gmap string pyvalue) : outcome (gmap string pyvalue) :=
         match l with
         | [] => Done d
         | subcomponent :: l' =>
             let full_index := full_index_of index ++ [subindex] in
             match _init_component_to_index__recursive subcomponent d
                     (IndexList full_index) with
             | Done d' => for_subcomponent l' (S subindex) d'
             | Raised e d' => Raised e d'
             end
         end) l 0%nat component_to_index
  | PyNone | PyInt _ => Raised AssertionError component_to_index
  end.

(** Induction on a value and, for a tuple or a list, on its elements. *)
Fixpoint pyvalue_nested_ind (P : pyvalue -> Prop)
  (HNone : P PyNone) (HInt : forall n, P (PyInt n)) (HStr : forall s, P (PyStr s))
  (HTuple : forall l, Forall P l -> P (PyTuple l))
  (HList : forall l, Forall P l -> P (PyList l))
  (v : pyvalue) {struct v} : P v :=
  let all :=
    fix all (l : list pyvalue) : Forall P l :=
      match l with
      | [] => @List.Forall_nil pyvalue P
      | x :: l' =>
          @List.Forall_cons pyvalue P x l'
            (pyvalue_nested_ind P HNone HInt HStr HTuple HList x) (all l')
      end in
  match v with
  | PyNone => HNone
  | PyInt n => HInt n
  | PyStr s => HStr s
  | PyTuple l => HTuple l (all l)
  | PyList l => HList l (all l)
  end.

(** The two loops of [_init_component_to_index__recursive], by name. *)
Fixpoint for_component (l : list pyvalue) (index : index)
  (d : gmap string pyvalue) : outcome (gmap string pyvalue) :=
  match l with
  | [] => Done d
  | component :: l' =>
      match _init_component_to_index__recursive component d index with
      | Done d' => for_component l' index d'
      | Raised e d' => Raised e d'
      end
  end.

Fixpoint for_subcomponent (l : list pyvalue) (index : index) (subindex : nat)
  (d : gmap string pyvalue) : outcome (gmap string pyvalue) :=
  match l with
  | [] => Done d
  | subcomponent :: l' =>
      match _init_component_to_index__recursive subcomponent d
              (IndexList (full_index_of index ++ [subindex])) with
      | Done d' => for_subcomponent l' index (S subindex) d'
      | Raised e d' => Raised e d'
      end
  end.

(** [for (index, component) in enumerate(components): ...] of
    [_init_component_to_index], from position [index] on. *)
Fixpoint for_enumerate (components : list pyvalue) (index : nat)
  (d : gmap string pyvalue) : outcome (gmap string pyvalue) :=
  match components with
  | [] => Done d
  | component :: components' =>
      match _init_component_to_index__recursive component d (IndexInt index) with
      | Done d' => for_enumerate components' (S index) d'
      | Raised e d' => Raised e d'
      end
  end.

(** The components the recursion accepts: strings, and lists and tuples of
    such. *)
Fixpoint well_formed (components : pyvalue) : bool :=
  match components with
  | PyStr _ => true
  | PyList l | PyTuple l => forallb well_formed l
  | PyNone | PyInt _ => false
  end.

(** The names of a component, in the order in which they are met. *)
Fixpoint names (components : pyvalue) : list string :=
  match components with
  | PyStr s => [s]
  | PyList l | PyTuple l => flat_map names l
  | PyNone | PyInt _ => []
  end.

(** The assignments [component_to_index[name] = value] the recursion makes
    for a component met with a given index. *)
Inductive assigned : pyvalue -> index -> string -> pyvalue -> Prop :=
| assigned_str s i : assigned (PyStr s) i s (stored i)
| assigned_list l component i s v :
    In component l -> assigned component i s v -> assigned (PyList l) i s v
| assigned_tuple l subindex subcomponent i s v :
    nth_error l subindex = Some subcomponent ->
    assigned subcomponent (IndexList (full_index_of i ++ [subindex])) s v ->
    assigned (PyTuple l) i s v.

(** Exceptions of the patched methods. *)
Inductive fsexn : Type :=
| FsAssertionError
| FsAttributeError
| FsKeyError (key : string)
| FsDolfinError.

Inductive result (A : Type) : Type :=
| Ok (a : A)
| Err (e : fsexn).
Arguments Ok {A} a.
Arguments Err {A} e.

(** The methods an instance can carry after the patches: dolfin's own, or a
    closure of this module around the method it replaced. *)
Inductive sub_method : Type :=
| DolfinSub
| CustomSub (original_sub : sub_method).

Inductive extract_method : Type :=
| DolfinExtract
| CustomExtract (original_extract_sub_space : extract_method).

Inductive collapse_method : Type :=
| DolfinCollapse
| CustomCollapse (original_collapse : collapse_method)
| SelfCollapse.

Section Wrapping.

(** dolfin is a collaborator: [D] is a [dolfin.FunctionSpace], [Args] the
    positional arguments of its constructor, [Dofs] the dictionary a collapse
    returns beside the collapsed space.  What dolfin's [sub] and
    [extract_sub_space] do with an argument is left to dolfin ([None]: it
    raises). *)
Context {D Args Dofs : Type}.

Class Dolfin : Type := {
  dolfin_FunctionSpace : Args -> gmap string pyarg -> D;
  dolfin_sub : D -> pyvalue -> option D;
  dolfin_extract_sub_space : D -> pyvalue -> option D;
  dolfin_collapse : D -> D;
  dolfin_collapsed_dofs : D -> Dofs
}.

Context {dolfin : Dolfin}.

(** A function space object: the dolfin object, the attribute
    [_component_to_index] when it has been set, and the methods bound to the
    instance. *)
Record function_space : Type := {
  dolfin_space : D;
  _component_to_index : option (gmap string pyvalue);
  has_component_to_index : bool;
  sub_of : sub_method;
  extract_sub_space_of : extract_method;
  collapse_of : collapse_method
}.

(** What dolfin returns: an object with dolfin's methods and no names. *)
Definition plain (d : D) : function_space :=
  {| dolfin_space := d; _component_to_index := None;
     has_component_to_index := false; sub_of := DolfinSub;
     extract_sub_space_of := DolfinExtract; collapse_of := DolfinCollapse |}.

Definition set_component_to_index (d : gmap string pyvalue) (fs : function_space)
  : function_space :=
  {| dolfin_space := dolfin_space fs; _component_to_index := Some d;
     has_component_to_index := has_component_to_index fs; sub_of := sub_of fs;
     extract_sub_space_of := extract_sub_space_of fs;
     collapse_of := collapse_of fs |}.

(** The end of [_init_component_to_index]: the method [component_to_index]
    is bound, and [collapse] is replaced by a closure around the method it
    had. *)
Definition bind_methods (fs : function_space) : function_space :=
  {| dolfin_space := dolfin_space fs;
     _component_to_index := _component_to_index fs;
     has_component_to_index := true; sub_of := sub_of fs;
     extract_sub_space_of := extract_sub_space_of fs;
     collapse_of := CustomCollapse (collapse_of fs) |}.

(** [_init_component_to_index] *)
Definition _init_component_to_index (components : pyarg) (fs : function_space)
  : outcome function_space :=
  match components with
  | Value (PyList l) =>
      match for_enumerate l 0 ∅ with
      | Done d => Done (bind_methods (set_component_to_index d fs))
      | Raised e d => Raised e (set_component_to_index d fs)
      end
  | Dict d => Done (bind_methods (set_component_to_index d fs))
  | Value _ => Raised AssertionError fs
  end.

(** [_convert_component_to_int] *)
Definition _convert_component_to_int (fs : function_space) (i : pyvalue)
  : result pyvalue :=
  match i with
  | PyStr s =>
      match _component_to_index fs with
      | None => Err FsAttributeError
      | Some d =>
          match d !! s with
          | Some v => Ok v
          | None => Err (FsKeyError s)
          end
      end
  | _ => Ok i
  end.

(** The method [component_to_index] *)
Definition component_to_index (fs : function_space) (i : string) : result pyvalue :=
  if has_component_to_index fs then _convert_component_to_int fs (PyStr i)
  else Err FsAttributeError.

(** [if isinstance(i, str): components = {i: None};
    _init_component_to_index(components, output)] *)
Definition name_output (i : pyvalue) (output : function_space)
  : result function_space :=
  match i with
  | PyStr s =>
      match _init_component_to_index (Dict {[s := PyNone]}) output with
      | Done output => Ok output
      | Raised _ _ => Err FsAssertionError
      end
  | _ => Ok output
  end.

(** [extract_sub_space] as bound to the instance. *)
Fixpoint call_extract_sub_space (method : extract_method) (self_ : function_space)
  (i : pyvalue) : result function_space :=
  match method with
  | DolfinExtract =>
      match dolfin_extract_sub_space (dolfin_space self_) i with
      | Some d => Ok (plain d)
      | None => Err FsDolfinError
      end
  | CustomExtract original_extract_sub_space =>
      match _convert_component_to_int self_ i with
      | Err e => Err e
      | Ok i_int =>
          match call_extract_sub_space original_extract_sub_space self_ i_int with
          | Err e => Err e
          | Ok output => name_output i output
          end
      end
  end.

Definition extract_sub_space (self_ : function_space) (i : pyvalue)
  : result function_space :=
  call_extract_sub_space (extract_sub_space_of self_) self_ i.

Definition set_collapse (method : collapse_method) (fs : function_space)
  : function_space :=
  {| dolfin_space := dolfin_space fs;
     _component_to_index := _component_to_index fs;
     has_component_to_index := has_component_to_index fs; sub_of := sub_of fs;
     extract_sub_space_of := extract_sub_space_of fs; collapse_of := method |}.

(** [sub] as bound to the instance.  The result is the output together with
    the instance after the call: when the index of a name is [None] the
    instance itself is returned, with its [collapse] replaced. *)
Fixpoint call_sub (method : sub_method) (self_ : function_space) (i : pyvalue)
  : result (function_space * function_space) :=
  match method with
  | DolfinSub =>
      match dolfin_sub (dolfin_space self_) i with
      | Some d => Ok (plain d, self_)
      | None => Err FsDolfinError
      end
  | CustomSub original_sub =>
      match i with
      | PyNone => Err FsAssertionError
      | _ =>
          match _convert_component_to_int self_ i with
          | Err e => Err e
          | Ok PyNone =>
              let self_ := set_collapse SelfCollapse self_ in
              Ok (self_, self_)
          | Ok (PyInt n) =>
              match call_sub original_sub self_ (PyInt n) with
              | Err e => Err e
              | Ok (output, self_) =>
                  match name_output i output with
                  | Err e => Err e
                  | Ok output => Ok (output, self_)
                  end
              end
          | Ok (PyTuple t) =>
              match extract_sub_space self_ (PyTuple t) with
              | Err e => Err e
              | Ok output =>
                  match name_output i output with
                  | Err e => Err e
                  | Ok output => Ok (output, self_)
                  end
              end
          | Ok (PyStr _) | Ok (PyList _) => Err FsAssertionError
          end
      end
  end.

Definition sub (self_ : function_space) (i : pyvalue)
  : result (function_space * function_space) :=
  call_sub (sub_of self_) self_ i.

(** [collapse] as bound to the instance; beside the output, the dictionary
    of collapsed DOFs when [collapsed_dofs] is set. *)
Fixpoint call_collapse (method : collapse_method) (self_ : function_space)
  (collapsed_dofs : bool) : result (function_space * option Dofs) :=
  match method with
  | DolfinCollapse =>
      Ok (plain (dolfin_collapse (dolfin_space self_)),
          if collapsed_dofs then Some (dolfin_collapsed_dofs (dolfin_space self_))
          else None)
  | SelfCollapse =>
      if collapsed_dofs then Err FsAssertionError else Ok (self_, None)
  | CustomCollapse original_collapse =>
      match call_collapse original_collapse self_ collapsed_dofs with
      | Err e => Err e
      | Ok (output, collapsed_dofs_dict) =>
          match _component_to_index self_ with
          | Some d =>
              match _init_component_to_index (Dict d) output with
              | Done output => Ok (output, collapsed_dofs_dict)
              | Raised _ _ => Err FsAssertionError
              end
          | None => Ok (output, collapsed_dofs_dict)
          end
      end
  end.

Definition collapse (self_ : function_space) (collapsed_dofs : bool)
  : result (function_space * option Dofs) :=
  call_collapse (collapse_of self_) self_ collapsed_dofs.

(** [_enable_string_components] *)
Definition _enable_string_components (components : pyarg) (fs : function_space)
  : outcome function_space :=
  match _init_component_to_index components fs with
  | Raised e fs => Raised e fs
  | Done fs =>
      Done {| dolfin_space := dolfin_space fs;
              _component_to_index := _component_to_index fs;
              has_component_to_index := has_component_to_index fs;
              sub_of := CustomSub (sub_of fs);
              extract_sub_space_of := CustomExtract (extract_sub_space_of fs);
              collapse_of := collapse_of fs |}
  end.

(** [FunctionSpace], called with positional arguments [args] and keyword
    arguments [kwargs]. *)
Definition FunctionSpace (args : Args) (kwargs : gmap string pyarg)
  : outcome function_space :=
  let components := default (Value PyNone) (kwargs !! "components") in
  let kwargs := delete "components" kwargs in
  let output := plain (dolfin_FunctionSpace args kwargs) in
  match components with
  | Value PyNone => Done output
  | _ => _enable_string_components components output
  end.

(** A function space that carries the names [d] and hands them on when it
    is collapsed. *)
Definition carries (d : gmap string pyvalue) (fs : function_space) : Prop :=
  _component_to_index fs = Some d /\
  has_component_to_index fs = true /\
  collapse_of fs = CustomCollapse DolfinCollapse.

End Wrapping.

Arguments Dolfin D Args Dofs : clear implicits.
Arguments function_space D : clear implicits.

(** A small dolfin: a space is the path of sub-space indices taken from the
    mixed space; [sub] takes an [int], [extract_sub_space] a tuple of
    [int]s. *)
Definition ints (l : list pyvalue) : option (list Z) :=
  mapM (fun v => match v with PyInt n => Some n | _ => None end) l.

#[export] Instance toy_dolfin : Dolfin (list Z) unit unit := {|
  dolfin_FunctionSpace := fun _ _ => [];
  dolfin_sub := fun d i => match i with PyInt n => Some (d ++ [n]) | _ => None end;
  dolfin_extract_sub_space :=
    fun d i => match i with PyTuple t => (fun p => d ++ p) <$> ints t | _ => None end;
  dolfin_collapse := fun d => d;
  dolfin_collapsed_dofs := fun _ => tt
|}.

(** [components = [("ux", "uy"), ["p", "pressure"]]] *)
Definition stokes_components : list pyvalue :=
  [PyTuple [PyStr "ux"; PyStr "uy"]; PyList [PyStr "p"; PyStr "pressure"]].

(** [FunctionSpace(mesh, element, components=[("ux", "uy"), ["p", "pressure"]])] *)
Definition stokes_kwargs : gmap string pyarg :=
  {[ "components" := Value (PyList stokes_components) ]}.

Definition stokes_space : function_space (list Z) :=
  state_of (FunctionSpace tt stokes_kwargs).

(** [FunctionSpace(mesh, element, components={"p": None})] *)
Definition pressure_kwargs : gmap string pyarg :=
  {[ "components" := Dict {[ "p" := PyNone ]} ]}.

Definition pressure_space : function_space (list Z) :=
  state_of (FunctionSpace tt pressure_kwargs).

End FunctionSpace.

(** * Theorems *)

(** ** Comparisons and division of binary64 floats *)

Module FloatFacts.

Local Open Scope float_scope.

Lemma SFleb_ltb_trans a b c :
  SFleb a b = true -> SFltb b c = true -> SFleb a c = true.
Proof. unfold SFleb, SFltb. intros H1 H2. spec_cases; order_cases. Qed.

Lemma SFleb_eqb_trans a b c :
  SFleb a b = true -> SFeqb c b = true -> SFleb a c = true.
Proof. unfold SFleb, SFeqb. intros H1 H2. spec_cases; order_cases. Qed.

Lemma SFeqb_leb a b : SFeqb a b = true -> SFleb a b = true.
Proof. unfold SFleb, SFeqb. intros H. spec_cases; order_cases. Qed.

Lemma SFleb_total a b :
  SFeqb a a = true -> SFeqb b b = true -> SFltb b a = false -> SFleb a b = true.
Proof. unfold SFleb, SFeqb, SFltb. intros Ha Hb H. spec_cases; order_cases. Qed.

Lemma SFleb_refl a b : SFleb a b = true -> SFeqb b b = true.
Proof. unfold SFleb, SFeqb. intros H. spec_cases; order_cases. Qed.

Lemma SFnan_ltb a b : SFeqb b b = false -> SFltb a b = false.
Proof. unfold SFeqb, SFltb. intros H. spec_cases; order_cases. Qed.

Lemma SFnan_eqb a b : SFeqb b b = false -> SFeqb b a = false.
Proof. unfold SFeqb. intros H. spec_cases; order_cases. Qed.

(** The same facts on primitive floats. *)

Lemma leb_ltb_trans a b c :
  (a <=? b) = true -> (b <? c) = true -> (a <=? c) = true.
Proof. rewrite !FloatAxioms.leb_spec, FloatAxioms.ltb_spec. apply SFleb_ltb_trans. Qed.

Lemma leb_eqb_trans a b c :
  (a <=? b) = true -> (c =? b) = true -> (a <=? c) = true.
Proof. rewrite !FloatAxioms.leb_spec, FloatAxioms.eqb_spec. apply SFleb_eqb_trans. Qed.

Lemma eqb_leb a b : (a =? b) = true -> (a <=? b) = true.
Proof. rewrite FloatAxioms.leb_spec, FloatAxioms.eqb_spec. apply SFeqb_leb. Qed.

Lemma leb_refl a b : (a <=? b) = true -> (b <=? b) = true.
Proof.
  rewrite !FloatAxioms.leb_spec. intros H. apply SFeqb_leb. now apply SFleb_refl in H.
Qed.

Lemma leb_total a b c :
  (c <=? a) = true -> (c <=? b) = true -> (b <? a) = false -> (a <=? b) = true.
Proof.
  rewrite !FloatAxioms.leb_spec, FloatAxioms.ltb_spec. intros Ha Hb. apply SFleb_total.
  - now apply SFleb_refl in Ha.
  - now apply SFleb_refl in Hb.
Qed.

Lemma leb_ltb_strict a b c :
  (a <=? b) = true -> (b <? c) = true -> (a <? c) = true.
Proof.
  rewrite FloatAxioms.leb_spec, !FloatAxioms.ltb_spec.
  generalize (Prim2SF a) (Prim2SF b) (Prim2SF c). intros x y z.
  unfold SFleb, SFltb. intros H1 H2. spec_cases; order_cases.
Qed.

Lemma ltb_or_eqb a b c :
  (c <=? a) = true -> (c <=? b) = true ->
  (b <? a) = false -> (a =? b) = false -> (a <? b) = true.
Proof.
  rewrite !FloatAxioms.leb_spec, !FloatAxioms.ltb_spec, FloatAxioms.eqb_spec.
  generalize (Prim2SF a) (Prim2SF b) (Prim2SF c). intros x y z.
  unfold SFleb, SFltb, SFeqb. intros H1 H2 H3 H4. spec_cases; order_cases.
Qed.

Lemma nonneg_above_minus_one d : (0 <=? d) = true -> (-1 <? d) = true.
Proof.
  rewrite FloatAxioms.leb_spec, FloatAxioms.ltb_spec.
  change (Prim2SF 0) with (S754_zero false).
  change (Prim2SF (-1)) with (S754_finite true 4503599627370496 (-52)).
  generalize (Prim2SF d). intros x. unfold SFleb, SFltb.
  destruct x as [[] | [] | | [] ? ?]; cbn; congruence.
Qed.

Lemma eqb_not_ltb a b : (a =? b) = true -> (b <? a) = false.
Proof.
  rewrite FloatAxioms.eqb_spec, FloatAxioms.ltb_spec.
  generalize (Prim2SF a) (Prim2SF b). intros x y. unfold SFeqb, SFltb.
  intros H. spec_cases; order_cases.
Qed.

Lemma nan_not_above a d : is_nan d = true -> (a <? d) = false.
Proof.
  unfold is_nan. rewrite FloatAxioms.eqb_spec, FloatAxioms.ltb_spec.
  intros H. apply SFnan_ltb. now destruct (SFeqb _ _).
Qed.

Lemma nan_not_equal a d : is_nan d = true -> (d =? a) = false.
Proof.
  unfold is_nan. rewrite !FloatAxioms.eqb_spec.
  intros H. apply SFnan_eqb. now destruct (SFeqb _ _).
Qed.

(** Division by a zero: [x / 0] is an infinity when [x] is a number other
    than zero, and NaN when [x] is zero. *)
Lemma div_zero_infinite d e :
  (e =? 0) = true -> (d =? d) = true -> (d =? 0) = false ->
  is_infinity (d / e) = true.
Proof.
  unfold is_infinity.
  rewrite !FloatAxioms.eqb_spec, abs_spec, div_spec.
  change (Prim2SF 0) with (S754_zero false).
  change (Prim2SF infinity) with (S754_infinity false).
  generalize (Prim2SF d) (Prim2SF e). intros x y. unfold SFeqb, SF64div.
  intros Hy Hx Hx0. spec_cases; order_cases.
Qed.

Lemma div_zero_positive d e :
  (e =? 0) = true -> (0 <? d) = true -> is_infinity (d / e) = true.
Proof.
  intros He Hd. apply div_zero_infinite; [exact He | |].
  - revert Hd. rewrite FloatAxioms.ltb_spec, FloatAxioms.eqb_spec.
    generalize (Prim2SF 0) (Prim2SF d). intros x y. unfold SFeqb, SFltb.
    intros H. spec_cases; order_cases.
  - revert Hd. rewrite FloatAxioms.ltb_spec, FloatAxioms.eqb_spec.
    change (Prim2SF 0) with (S754_zero false).
    generalize (Prim2SF d). intros y. unfold SFeqb, SFltb.
    intros H. spec_cases; order_cases.
Qed.

Lemma div_zero_zero d e :
  (e =? 0) = true -> (d =? 0) = true -> is_nan (d / e) = true.
Proof.
  unfold is_nan.
  rewrite !FloatAxioms.eqb_spec, div_spec.
  change (Prim2SF 0) with (S754_zero false).
  generalize (Prim2SF d) (Prim2SF e). intros x y. unfold SFeqb, SF64div.
  intros Hy Hx. spec_cases; order_cases.
Qed.

Lemma infinity_is_not_nan x : is_infinity x = true -> is_nan x = false.
Proof.
  unfold is_infinity, is_nan.
  rewrite !FloatAxioms.eqb_spec, abs_spec.
  change (Prim2SF infinity) with (S754_infinity false).
  generalize (Prim2SF x). intros y. unfold SFeqb.
  intros H. spec_cases; order_cases.
Qed.

End FloatFacts.

(** ** Gram-Schmidt *)

Module GramSchmidtFacts.

Import GramSchmidt.
Local Open Scope float_scope.

Section Heap.

Context {V : Type}.

Lemma store_same (h : heap V) l v : store h l v l = v.
Proof. unfold store. now rewrite Nat.eqb_refl. Qed.

Lemma store_other (h : heap V) l l' v : l' <> l -> store h l v l' = h l'.
Proof.
  intros Hne. unfold store.
  destruct (Nat.eqb_spec l' l); [contradiction | reflexivity].
Qed.

End Heap.

Section ApplyFacts.

Context {V : Type} {B : Backend V}.
Context {W : Wrapping V} {C : WrappingContract B W}.

(** The loop never rebinds [b] to another object, writes only to that
    object, and leaves in it the successive projections of its value. *)
Lemma projection_loop_in_place (Z : list loc) (range : list nat) (b : loc) (h : heap V) :
  (forall i, In i range -> nth i Z b <> b) ->
  exists h1,
    projection_loop Z range b h = (b, h1) /\
    h1 b = project_values (h b) (map (fun i => h (nth i Z b)) range) /\
    (forall l, l <> b -> h1 l = h l).
Proof.
  revert h. induction range as [| i range IH]; intros h Hne.
  - exists h. cbn. auto.
  - cbn [projection_loop]. rewrite projection_step_in_place.
    unfold in_place_projection.
    destruct (IH (store h b (projected (h b) (h (nth i Z b))))) as (h1 & Hloop & Hb & Hframe).
    { intros k Hk. apply Hne. now right. }
    exists h1. split; [exact Hloop |]. split.
    + rewrite Hb, store_same. cbn [map project_values fold_left].
      unfold project_values. f_equal.
      apply map_ext_in. intros k Hk. apply store_other. apply Hne. now right.
    + intros l Hl. rewrite Hframe by exact Hl. now apply store_other.
Qed.

Lemma range_from (front pre : list loc) (b0 : loc) (h : heap V) :
  map (fun i => h (nth i (front ++ pre ++ [b0]) b0)) (seq (length front) (length pre))
  = map h pre.
Proof.
  revert front. induction pre as [| a pre IH]; intros front; [reflexivity |].
  cbn [length seq map]. f_equal.
  - f_equal. apply nth_middle.
  - specialize (IH (front ++ [a])).
    rewrite length_app, Nat.add_1_r, <- app_assoc in IH. exact IH.
Qed.

Lemma range_is_prefix (pre : list loc) (b0 : loc) (h : heap V) :
  map (fun i => h (nth i (pre ++ [b0]) b0)) (seq 0 (length pre)) = map h pre.
Proof. exact (range_from [] pre b0 h). Qed.

Lemma distinct_last (pre : list loc) (b0 : loc) :
  NoDup (pre ++ [b0]) -> ~ In b0 pre.
Proof.
  intros Hnd Hin. apply NoDup_app in Hnd as (_ & Hdisj & _).
  apply list_elem_of_In in Hin. apply (Hdisj b0 Hin). now left.
Qed.

Lemma range_avoids_last (pre : list loc) (b0 : loc) :
  ~ In b0 pre ->
  forall i, In i (seq 0 (length pre)) -> nth i (pre ++ [b0]) b0 <> b0.
Proof.
  intros Hnin i Hi Heq. apply in_seq in Hi. rewrite app_nth1 in Heq by lia.
  apply Hnin. rewrite <- Heq. apply nth_In. lia.
Qed.

(** The residual of a list whose last reference is [b0]: the candidate
    projected against the previous entries, in their order. *)
Lemma residual_snoc (pre : list loc) (b0 : loc) (h : heap V) :
  ~ In b0 pre ->
  residual (pre ++ [b0]) h = project_values (h b0) (map h pre).
Proof.
  intros Hnin. unfold residual.
  rewrite last_last, length_app, Nat.add_sub. cbn [length].
  destruct (projection_loop_in_place (pre ++ [b0]) (seq 0 (length pre)) b0 h)
    as (h1 & Hloop & Hb & _); [now apply range_avoids_last |].
  rewrite Hloop, Hb. now rewrite range_is_prefix.
Qed.

(** What [apply] does to such a list: the loop leaves the residual in [b0]
    and writes nothing else; then [math.sqrt] raises, or the residual is
    handed to the division of the vector type. *)
Lemma apply_snoc (pre : list loc) (b0 : loc) (h : heap V) :
  ~ In b0 pre ->
  exists h1,
    h1 b0 = residual (pre ++ [b0]) h /\
    (forall l, l <> b0 -> h1 l = h l) /\
    apply (pre ++ [b0]) h
    = if residual_sq (pre ++ [b0]) h <? 0 then Raised ValueError h1
      else match idiv (residual (pre ++ [b0]) h) (residual_norm (pre ++ [b0]) h) with
           | Done v => Done (store h1 b0 v)
           | Raised e v => Raised e (store h1 b0 v)
           end.
Proof.
  intros Hnin. unfold residual_norm, residual_sq.
  rewrite residual_snoc by exact Hnin.
  unfold apply. rewrite length_app, Nat.add_sub. cbn [length].
  rewrite nth_error_app2 by lia. rewrite Nat.sub_diag. cbn [nth_error].
  destruct (projection_loop_in_place (pre ++ [b0]) (seq 0 (length pre)) b0 h)
    as (h1 & Hloop & Hb & Hframe); [now apply range_avoids_last |].
  rewrite range_is_prefix in Hb.
  exists h1. split; [exact Hb |]. split; [exact Hframe |].
  rewrite Hloop. cbn zeta. now rewrite Hb.
Qed.

(** C1 (amended).  For every basis sequence [Z] of distinct objects whose
    candidate has a squared X-norm, after the projection steps, that
    [math.sqrt] accepts and a residual that the vector type divides: [apply]
    completes, writes to the last object only (in place), and leaves in it the
    candidate projected against the previous entries, in their order, and
    divided by its computed X-norm, all in binary64; nothing is projected a
    second time and the result is not tested.  For n = 1 the projection loop
    is skipped: the result is the divided candidate whatever the wrapping's
    projection step does. *)
Theorem apply_normalizes_in_place (Z : list loc) (h : heap V) (v : V) :
  Z <> [] ->
  NoDup Z ->
  (residual_sq Z h <? 0) = false ->
  idiv (residual Z h) (residual_norm Z h) = Done v ->
  exists h',
    apply Z h = Done h' /\
    h' (List.last Z 0%nat) = v /\
    (forall l, l <> List.last Z 0%nat -> h' l = h l) /\
    residual Z h
    = project_values (h (List.last Z 0%nat)) (map h (removelast Z)) /\
    (length Z = 1%nat ->
     residual Z h = h (List.last Z 0%nat) /\
     forall W' : Wrapping V,
       @apply V B W' Z h = Done (store h (List.last Z 0%nat) v)).
Proof.
  intros Hne Hnd Hsq Hdiv.
  destruct (exists_last Hne) as (pre & b0 & ->).
  rewrite removelast_last, last_last in *.
  pose proof (distinct_last pre b0 Hnd) as Hnin.
  destruct (apply_snoc pre b0 h Hnin) as (h1 & Hb & Hframe & Happly).
  rewrite Hsq, Hdiv in Happly.
  exists (store h1 b0 v). split; [exact Happly |].
  split; [apply store_same |]. split.
  { intros l Hl. rewrite store_other by exact Hl. now apply Hframe. }
  split; [now apply residual_snoc |].
  intros Hlen. rewrite length_app in Hlen. cbn in Hlen.
  destruct pre as [| a pre]; [| cbn in Hlen; lia].
  split; [reflexivity |].
  intros W'. unfold residual_norm, residual_sq, residual in Hsq, Hdiv.
  cbn in Hsq, Hdiv. unfold apply. cbn. now rewrite Hsq, Hdiv.
Qed.

(** C2 (amended).  [apply] has no tolerance and no NumericalDegeneracy
    error.  Whenever the squared residual norm is one that [math.sqrt]
    accepts, however small the norm is (below any tolerance [tol]), the
    residual is handed to the division of the vector type: [apply] completes
    when that division completes and raises what it raises.  And whatever its
    input, the only exceptions of [apply] are the IndexError of [Z[-1]] on an
    empty list, the ValueError of [math.sqrt] and those of that division. *)
Theorem apply_has_no_tolerance (tol : float) (Z : list loc) (h : heap V) :
  Z <> [] ->
  NoDup Z ->
  (residual_norm Z h <? tol) = true ->
  (residual_sq Z h <? 0) = false ->
  match idiv (residual Z h) (residual_norm Z h) with
  | Done v => exists h', apply Z h = Done h' /\ h' (List.last Z 0%nat) = v
  | Raised e v => exists h', apply Z h = Raised e h' /\ h' (List.last Z 0%nat) = v
  end /\
  (forall Z1 h1 e s,
      apply Z1 h1 = Raised e s ->
      e = IndexError \/ e = ValueError \/
      exists a d a', idiv a d = Raised e a').
Proof.
  intros Hne Hnd _ Hsq. split.
  - destruct (exists_last Hne) as (pre & b0 & ->). rewrite last_last.
    destruct (apply_snoc pre b0 h (distinct_last pre b0 Hnd))
      as (h1 & _ & _ & Happly).
    rewrite Hsq in Happly.
    destruct (idiv _ _) as [v | e v]; eexists; (split; [exact Happly |]);
      apply store_same.
  - clear. intros Z1 h1 e s. unfold apply.
    destruct (nth_error Z1 (length Z1 - 1)) as [b0 |]; [| intros [= <- _]; auto].
    destruct (projection_loop Z1 (seq 0 (length Z1 - 1)) b0 h1) as [b h2].
    destruct (_ <? 0); [intros [= <- _]; auto |].
    destruct (idiv (h2 b) _) as [v | e' v] eqn:Hdiv; [discriminate |].
    intros [= <- _]. right. right. eauto.
Qed.

(** When [apply] raises on a non-empty basis of distinct objects, the
    projection steps are not undone: no object but the last is written, and
    the last holds the residual when [math.sqrt] raised (a negative squared
    norm), or what the failed division of the vector type left of it. *)
Theorem apply_degenerate (Z : list loc) (h : heap V) :
  Z <> [] ->
  NoDup Z ->
  raises (apply Z h) ->
  exists e h1,
    apply Z h = Raised e h1 /\
    (forall l, l <> List.last Z 0%nat -> h1 l = h l) /\
    ((residual_sq Z h <? 0) = true /\ e = ValueError /\
     h1 (List.last Z 0%nat) = residual Z h \/
     (residual_sq Z h <? 0) = false /\
     idiv (residual Z h) (residual_norm Z h) = Raised e (h1 (List.last Z 0%nat))).
Proof.
  intros Hne Hnd (e & s & Hraised).
  destruct (exists_last Hne) as (pre & b0 & ->). rewrite last_last.
  destruct (apply_snoc pre b0 h (distinct_last pre b0 Hnd))
    as (h1 & Hb & Hframe & Happly).
  rewrite Happly in Hraised. rewrite Happly.
  destruct (residual_sq (pre ++ [b0]) h <? 0) eqn:Hsq.
  - exists ValueError, h1. split; [reflexivity |]. split; [exact Hframe |].
    left. auto.
  - destruct (idiv _ _) as [v | e' v] eqn:Hdiv; [discriminate |].
    exists e', (store h1 b0 v). split; [reflexivity |]. split.
    + intros l Hl. rewrite store_other by exact Hl. now apply Hframe.
    + right. split; [reflexivity |]. now rewrite store_same.
Qed.

End ApplyFacts.

Lemma plane_contract : WrappingContract plane_backend plane_wrapping.
Proof. split. reflexivity. Qed.

Lemma raising_contract : WrappingContract raising_backend raising_wrapping.
Proof. split. reflexivity. Qed.

Lemma line_contract : WrappingContract line_backend line_wrapping.
Proof. split. reflexivity. Qed.

Lemma plane_Z_distinct : NoDup plane_Z.
Proof.
  unfold plane_Z. apply NoDup_cons. split.
  - intros Hin. apply list_elem_of_singleton in Hin. discriminate.
  - apply NoDup_singleton.
Qed.

Lemma apply_normalizes_in_place_witness :
  exists h',
    apply plane_Z plane_heap = Done h' /\
    h' (List.last plane_Z 0%nat) = (0, 1) /\
    (forall l, l <> List.last plane_Z 0%nat -> h' l = plane_heap l) /\
    residual plane_Z plane_heap
    = project_values (plane_heap (List.last plane_Z 0%nat))
        (map plane_heap (removelast plane_Z)) /\
    (length plane_Z = 1%nat ->
     residual plane_Z plane_heap = plane_heap (List.last plane_Z 0%nat) /\
     forall W' : Wrapping plane,
       @apply plane plane_backend W' plane_Z plane_heap
       = Done (store plane_heap (List.last plane_Z 0%nat) (0, 1))).
Proof.
  apply (@apply_normalizes_in_place plane plane_backend plane_wrapping
           plane_contract plane_Z plane_heap (0, 1)).
  - discriminate.
  - exact plane_Z_distinct.
  - reflexivity.
  - reflexivity.
Defined.

(** C1 does not hold: in binary64 the Gram matrix can be farther from the
    identity than 1e-10.  Under [X = [[1, 0.5], [0.5, 1]]] the first entry
    (1, 0) has X-norm exactly 1 and the candidate (1, 1e-7) is not
    degenerate (its residual norm is above the tolerance); [apply] completes,
    and the entry (1, 0) of the Gram matrix of the result exceeds the
    tolerance.  And for n = 1 on the line, the candidate 1e200 is left with
    X-norm 0, not 1: its square is an infinity. *)
Lemma gram_beyond_tolerance :
  (NoDup plane_Z /\
   @gram plane skew_backend plane_Z skew_heap 0 0 = 1 /\
   (tolerance <? @residual_norm plane skew_backend skew_wrapping plane_Z skew_heap)
   = true /\
   exists h',
     @apply plane skew_backend skew_wrapping plane_Z skew_heap = Done h' /\
     (tolerance <? abs (@gram plane skew_backend plane_Z h' 1 0)) = true) /\
  (length line_Z = 1%nat /\
   exists h',
     apply line_Z huge_heap = Done h' /\
     gram line_Z h' 0 0 = 0).
Proof.
  split.
  - split; [exact plane_Z_distinct |].
    split; [reflexivity |]. split; [reflexivity |].
    eexists. split; reflexivity.
  - split; [reflexivity |]. eexists. split; reflexivity.
Qed.

Lemma apply_has_no_tolerance_witness :
  match idiv (residual line_Z line_heap) (residual_norm line_Z line_heap) with
  | Done v => exists h', apply line_Z line_heap = Done h' /\ h' (List.last line_Z 0%nat) = v
  | Raised e v =>
      exists h', apply line_Z line_heap = Raised e h' /\ h' (List.last line_Z 0%nat) = v
  end /\
  (forall Z1 (h1 : heap float) e s,
      apply Z1 h1 = Raised e s ->
      e = IndexError \/ e = ValueError \/
      exists a d a', idiv a d = Raised e a').
Proof.
  apply (@apply_has_no_tolerance float line_backend line_wrapping line_contract
           tolerance line_Z line_heap).
  - discriminate.
  - apply NoDup_singleton.
  - reflexivity.
  - reflexivity.
Defined.

(** C2 does not hold: no tolerance, however it is configured, makes
    [apply] fail on every candidate whose residual X-norm is below it: on the
    line even a candidate that is zero is handed to the division.  And with
    the tolerance 1e-10, the first snapshot 5e-11, whose residual norm is
    below it, is normalized to 1. *)
Lemma no_degeneracy_tolerance :
  (~ exists tol : float,
       (0 <? tol) = true /\
       forall (Z : list loc) (h : heap float),
         (residual_norm Z h <? tol) = true -> raises (apply Z h)) /\
  (residual_norm line_Z line_heap <? tolerance) = true /\
  exists h', apply line_Z line_heap = Done h' /\ h' 0%nat = 1.
Proof.
  split; [| split; [reflexivity | eexists; split; reflexivity]].
  intros (tol & Htol & Hfail).
  destruct (Hfail [0%nat] (fun _ => 0)) as (e & s & Hraised).
  - exact Htol.
  - discriminate Hraised.
Qed.

Lemma apply_degenerate_witness :
  exists e h1,
    @apply plane raising_backend raising_wrapping plane_Z colinear_heap
    = Raised e h1 /\
    (forall l, l <> List.last plane_Z 0%nat -> h1 l = colinear_heap l) /\
    ((@residual_sq plane raising_backend raising_wrapping plane_Z colinear_heap <? 0)
     = true /\ e = ValueError /\
     h1 (List.last plane_Z 0%nat)
     = @residual plane raising_wrapping plane_Z colinear_heap \/
     (@residual_sq plane raising_backend raising_wrapping plane_Z colinear_heap <? 0)
     = false /\
     @idiv plane raising_backend
       (@residual plane raising_wrapping plane_Z colinear_heap)
       (@residual_norm plane raising_backend raising_wrapping plane_Z colinear_heap)
     = Raised e (h1 (List.last plane_Z 0%nat))).
Proof.
  apply (@apply_degenerate plane raising_backend raising_wrapping raising_contract
           plane_Z colinear_heap).
  - discriminate.
  - exact plane_Z_distinct.
  - eexists. eexists. reflexivity.
Defined.

Section Copying.

Context {V : Type} {B : Backend V} {W : Wrapping V}.

Variable Z : list loc.

Hypothesis step_copies : forall b z h,
  ~ In (fst (gram_schmidt_projection_step b z h)) Z /\
  forall l, In l Z -> snd (gram_schmidt_projection_step b z h) l = h l.

Lemma projection_loop_copies (range : list nat) :
  forall (b : loc) (h : heap V),
    range <> [] \/ ~ In b Z ->
    ~ In (fst (projection_loop Z range b h)) Z /\
    forall l, In l Z -> snd (projection_loop Z range b h) l = h l.
Proof.
  induction range as [| i range IH]; intros b h Hstart.
  - destruct Hstart as [Hne | Hb]; [contradiction |]. cbn. auto.
  - cbn [projection_loop].
    destruct (step_copies b (nth i Z b) h) as [Hfresh Hsame].
    destruct (gram_schmidt_projection_step b (nth i Z b) h) as [b' h'].
    cbn [fst snd] in Hfresh, Hsame.
    destruct (IH b' h' (or_intror Hfresh)) as [Hfresh' Hsame'].
    split; [exact Hfresh' |].
    intros l Hl. rewrite Hsame' by exact Hl. now apply Hsame.
Qed.

(** [apply] relies on a projection step that works in place.  With a step
    that returns another object and leaves its arguments as they are, a basis
    of two or more functions is not changed at all, whether [apply] completes
    or raises: the normalization goes to the object the step returned. *)
Theorem apply_needs_in_place_step (h : heap V) :
  (2 <= length Z)%nat ->
  forall l, In l Z -> state_of (apply Z h) l = h l.
Proof.
  intros Hlen l Hl. unfold apply.
  destruct (nth_error Z (length Z - 1)) as [b0 |] eqn:Hb0; [| reflexivity].
  destruct (projection_loop_copies (seq 0 (length Z - 1)) b0 h) as [Hfresh Hsame].
  { left. destruct (length Z - 1)%nat eqn:Hn; [lia | discriminate]. }
  destruct (projection_loop Z (seq 0 (length Z - 1)) b0 h) as [b h1].
  cbn [fst snd] in Hfresh, Hsame.
  destruct (_ <? 0); [now apply Hsame |].
  destruct (idiv (h1 b) _) as [v | e v]; cbn [state_of];
    (rewrite store_other; [now apply Hsame | intros ->; contradiction]).
Qed.

End Copying.

Lemma apply_needs_in_place_step_witness :
  state_of (@apply plane plane_backend copying_wrapping plane_Z plane_heap) 0%nat
  = plane_heap 0%nat /\
  state_of (@apply plane plane_backend copying_wrapping plane_Z plane_heap) 1%nat
  = plane_heap 1%nat.
Proof.
  split;
    apply (@apply_needs_in_place_step plane plane_backend copying_wrapping plane_Z);
    try (cbn; lia); try (cbn; tauto);
    intros b z h; cbn; (split;
      [intros [H | [H | []]]; discriminate
      | intros l [<- | [<- | []]]; reflexivity]).
Defined.

End GramSchmidtFacts.
(** ** The reduction method *)

Module RBFacts.

Import RB FloatFacts.
Local Open Scope float_scope.

Section Files.

Context {World Snapshot : Type} {collaborators : Collaborators World Snapshot}.

Lemma append_same_prefix (d a b : string) :
  (d +:+ a = d +:+ b)%string -> a = b.
Proof.
  induction d as [| c d IH]; cbn; [auto |]. intros [= H]. auto.
Qed.

Lemma open_append_keeps directory name fs fs' :
  open_append directory name fs = Done fs' ->
  dirs fs' = dirs fs /\ forall path, contents path fs' = contents path fs.
Proof.
  unfold open_append. case_bool_decide; [| discriminate].
  intros [= <-]. split; [reflexivity |]. intros path. unfold contents at 1. cbn.
  destruct (decide (directory +:+ "/" +:+ name = path))%string as [-> | Hne].
  - now rewrite lookup_insert_eq.
  - now rewrite lookup_insert_ne.
Qed.

Lemma open_append_raises directory name fs e fs' :
  open_append directory name fs = Raised e fs' -> e = IOError /\ fs' = fs.
Proof.
  unfold open_append. case_bool_decide; [discriminate |]. now intros [= <- <-].
Qed.

(** What [save_greedy_post_processing_file] does, whatever its arguments
    and the files present: it raises, IOError when the directory is missing
    and TypeError from [file.write] otherwise, and every file keeps the
    contents it had. *)
Lemma save_raises
  (N : nat) (delta_max : float) (mu_greedy : Mu) (directory : string)
  (fs : filesystem) :
  exists e fs',
    save_greedy_post_processing_file N delta_max mu_greedy directory fs
    = Raised e fs' /\
    (e = IOError \/ e = TypeError) /\
    dirs fs' = dirs fs /\
    (forall path, contents path fs' = contents path fs) /\
    files fs' !! (directory +:+ "/mu_greedy.txt")%string
    = files fs !! (directory +:+ "/mu_greedy.txt")%string.
Proof.
  unfold save_greedy_post_processing_file.
  destruct (open_append directory "delta_max.txt" fs) as [fs1 | e fs1] eqn:Hopen.
  - cbn. exists TypeError, fs1.
    destruct (open_append_keeps _ _ _ _ Hopen) as [Hdirs Hcontents].
    repeat split; auto.
    unfold open_append in Hopen. case_bool_decide; [| discriminate].
    injection Hopen as <-. cbn. apply lookup_insert_ne.
    intros Heq. apply append_same_prefix in Heq. discriminate.
  - cbn. exists e, fs1.
    destruct (open_append_raises _ _ _ _ _ Hopen) as [-> ->]. auto 10.
Qed.

(** C9, as the code behaves.  No call of
    [save_greedy_post_processing_file] appends a record: the call raises
    before anything is written, every file keeps the contents it had (nothing
    is rewritten, and nothing is extended either), and [mu_greedy.txt] is not
    even opened. *)
Theorem save_greedy_post_processing_file_appends_nothing
  (N : nat) (delta_max : float) (mu_greedy : Mu) (directory : string)
  (fs : filesystem) :
  raises (save_greedy_post_processing_file N delta_max mu_greedy directory fs) /\
  (forall path,
      contents path
        (state_of (save_greedy_post_processing_file N delta_max mu_greedy directory fs))
      = contents path fs) /\
  files (state_of (save_greedy_post_processing_file N delta_max mu_greedy directory fs))
    !! (directory +:+ "/mu_greedy.txt")%string
  = files fs !! (directory +:+ "/mu_greedy.txt")%string.
Proof.
  destruct (save_raises N delta_max mu_greedy directory fs)
    as (e & fs' & -> & _ & _ & Hcontents & Hmu).
  cbn [state_of]. split; [| split; assumption].
  now exists e, fs'.
Qed.

Lemma save_is_unbound : bound "save_greedy_post_processing_file" = false.
Proof. reflexivity. Qed.

End Files.

Section Greedy.

Context {World Snapshot : Type} {collaborators : Collaborators World Snapshot}.

Lemma truth_solves_app tr tr' :
  truth_solves (tr ++ tr') = (truth_solves tr + truth_solves tr')%nat.
Proof. unfold truth_solves. now rewrite List.filter_app, length_app. Qed.

Lemma keeps_refl (st : state World) : keeps st st.
Proof. unfold keeps. auto 10. Qed.

Lemma keeps_trans (st1 st2 st3 : state World) :
  keeps st1 st2 -> keeps st2 st3 -> keeps st1 st3.
Proof. unfold keeps. intros (? & ? & ? & ? & ? & ?) (? & ? & ? & ? & ? & ?). repeat split; congruence. Qed.

Lemma evaluate_bound_spec (m : Mu) (st : state World) :
  exists st',
    evaluate_bound m st = (get_delta (reduced_solve (N st) m (world st)), st') /\
    world st' = reduced_solve (N st) m (world st) /\
    drawn st' = drawn st /\
    keeps st st'.
Proof.
  eexists. split; [reflexivity |]. cbn. split; [reflexivity |].
  split; [reflexivity |]. unfold keeps. cbn -[truth_solves]. repeat split.
  rewrite <- !app_assoc, truth_solves_app. cbn. lia.
Qed.

Lemma random_keeps (st : state World) :
  world (snd (random st)) = world st /\ keeps st (snd (random st)).
Proof. unfold keeps. cbn. auto 10. Qed.

(** One turn of the loop keeps the selection correct. *)
Lemma greedy_body_selected (seen_mus : list Mu) (seen_obs : list float)
  (delta_max : float) (munew : option Mu) (st : state World) (m : Mu) :
  length seen_mus = length seen_obs ->
  selected seen_mus seen_obs delta_max munew ->
  (forall d, In d seen_obs -> (0 <=? d) = true) ->
  (0 <=? get_delta (reduced_solve (N st) m (world st))) = true ->
  exists delta_max' munew' st',
    greedy_body (delta_max, munew, st) m = (delta_max', munew', st') /\
    selected (seen_mus ++ [m])
      (seen_obs ++ [get_delta (reduced_solve (N st) m (world st))])
      delta_max' munew' /\
    world st' = reduced_solve (N st) m (world st) /\
    keeps st st'.
Proof.
  intros Hlen Hsel Hseen Hd.
  destruct (evaluate_bound_spec m st) as (st1 & Heval & Hworld & _ & Hkeeps).
  unfold greedy_body. rewrite Heval.
  set (d := get_delta (reduced_solve (N st) m (world st))) in *.
  assert (Hnew_at : (seen_mus ++ [m]) !! length seen_obs = Some m).
  { rewrite <- Hlen, lookup_app_r by lia. now rewrite Nat.sub_diag. }
  assert (Hobs_at : (seen_obs ++ [d]) !! length seen_obs = Some d).
  { rewrite lookup_app_r by lia. now rewrite Nat.sub_diag. }
  assert (Hstart : (delta_max <? d) = false ->
                   exists k m0,
                     seen_mus !! k = Some m0 /\ seen_obs !! k = Some delta_max /\
                     munew = Some m0 /\
                     forall d0, In d0 seen_obs -> (d0 <=? delta_max) = true).
  { intros Hlt. destruct Hsel as [(_ & _ & ->) | Hsel]; [| exact Hsel].
    rewrite (nonneg_above_minus_one d Hd) in Hlt. discriminate. }
  assert (Hreplace : (forall d0, In d0 seen_obs -> (d0 <=? d) = true) ->
                     selected (seen_mus ++ [m]) (seen_obs ++ [d]) d (Some m)).
  { intros Hmax. right. exists (length seen_obs), m. repeat split; auto.
    intros d0 Hin. apply in_app_or in Hin as [Hin | [<- | []]]; [auto |].
    now apply (leb_refl 0). }
  assert (Hkeep : (d <=? delta_max) = true ->
                  (delta_max <? d) = false ->
                  selected (seen_mus ++ [m]) (seen_obs ++ [d]) delta_max munew).
  { intros Hle Hlt. destruct (Hstart Hlt) as (k & m0 & Hk & Hko & -> & Hmax).
    right. exists k, m0. repeat split.
    - now apply lookup_app_l_Some.
    - now apply lookup_app_l_Some.
    - intros d0 Hin. apply in_app_or in Hin as [Hin | [<- | []]]; auto. }
  destruct (delta_max <? d) eqn:Hlt.
  - exists d, (Some m), st1.
    split; [reflexivity |]. split; [| split; assumption].
    apply Hreplace. intros d0 Hin.
    destruct Hsel as [(-> & _ & _) | (k & m0 & _ & _ & _ & Hmax)].
    + destruct seen_obs; [destruct Hin | discriminate].
    + apply leb_ltb_trans with (b := delta_max); auto.
  - destruct (d =? delta_max) eqn:Heq.
    + destruct (random_keeps st1) as [Hw Hk].
      destruct (random st1) as [k st2] eqn:Hrandom. cbn [snd] in Hw, Hk.
      assert (Hworld2 : world st2 = reduced_solve (N st) m (world st)) by congruence.
      assert (Hkeeps2 : keeps st st2) by (eapply keeps_trans; eauto).
      destruct (ge_half k).
      * exists d, (Some m), st2.
        split; [reflexivity |]. split; [| split; assumption].
        apply Hreplace. intros d0 Hin.
        destruct (Hstart eq_refl) as (_ & _ & _ & _ & _ & Hmax).
        apply leb_eqb_trans with (b := delta_max); auto.
      * exists delta_max, munew, st2.
        split; [reflexivity |]. split; [| split; assumption].
        apply Hkeep; [now apply eqb_leb | reflexivity].
    + exists delta_max, munew, st1.
      split; [reflexivity |]. split; [| split; assumption].
      apply Hkeep; [| reflexivity].
      destruct (Hstart eq_refl) as (k & _ & _ & Hko & _ & _).
      apply leb_total with (c := 0); auto.
      apply Hseen. apply list_elem_of_In. eapply list_elem_of_lookup_2; eauto.
Qed.

(** The whole loop: the selection stays correct from any point on. *)
Lemma greedy_fold_selected (mus : list Mu) :
  forall (seen_mus : list Mu) (seen_obs : list float)
         (delta_max : float) (munew : option Mu) (st : state World),
    length seen_mus = length seen_obs ->
    selected seen_mus seen_obs delta_max munew ->
    (forall d, In d (seen_obs ++ observed_bounds (N st) (world st) mus) ->
               (0 <=? d) = true) ->
    exists delta_max' munew' st',
      fold_left greedy_body mus (delta_max, munew, st) = (delta_max', munew', st') /\
      selected (seen_mus ++ mus)
        (seen_obs ++ observed_bounds (N st) (world st) mus) delta_max' munew' /\
      keeps st st'.
Proof.
  induction mus as [| m mus IH]; intros seen_mus seen_obs delta_max munew st Hlen Hsel Hpos.
  - exists delta_max, munew, st. cbn. rewrite !app_nil_r.
    split; [reflexivity |]. split; [exact Hsel | apply keeps_refl].
  - cbn [observed_bounds] in *.
    set (d := get_delta (reduced_solve (N st) m (world st))) in *.
    destruct (greedy_body_selected seen_mus seen_obs delta_max munew st m)
      as (dm1 & mn1 & st1 & Hbody & Hsel1 & Hworld & Hkeeps); auto.
    { intros d0 Hin. apply Hpos. apply in_or_app. now left. }
    { apply Hpos. apply in_or_app. right. now left. }
    fold d in Hsel1.
    assert (HN : N st1 = N st) by apply Hkeeps.
    destruct (IH (seen_mus ++ [m]) (seen_obs ++ [d]) dm1 mn1 st1)
      as (dm2 & mn2 & st2 & Hfold & Hsel2 & Hkeeps2).
    { rewrite !length_app. cbn. lia. }
    { exact Hsel1. }
    { rewrite HN, Hworld, <- app_assoc. exact Hpos. }
    exists dm2, mn2, st2. cbn [fold_left]. rewrite Hbody.
    split; [exact Hfold |]. split.
    + rewrite HN, Hworld, <- !app_assoc in Hsel2. exact Hsel2.
    + eapply keeps_trans; eauto.
Qed.

Lemma mirror_draw (k : draw) :
  is_draw k ->
  is_draw (mirror k) /\ mirror (mirror k) = k /\ ge_half (mirror k) = negb (ge_half k).
Proof.
  unfold is_draw, mirror, ge_half.
  change (2 ^ 53)%Z with 9007199254740992%Z.
  change (2 ^ 52)%Z with 4503599627370496%Z.
  intros Hk.
  destruct (Z.leb_spec 4503599627370496 k) as [Hge | Hlt].
  - destruct (Z.leb_spec 4503599627370496 (k - 4503599627370496)); cbn; lia.
  - destruct (Z.leb_spec 4503599627370496 (k + 4503599627370496)); cbn; lia.
Qed.

Lemma greedy_body_tie (delta_max : float) (munew : option Mu)
  (st1 : state World) (m : Mu) :
  (fst (evaluate_bound m st1) =? delta_max) = true ->
  greedy_body (delta_max, munew, st1) m
  = let st2 := snd (evaluate_bound m st1) in
    if ge_half (draws st2 (drawn st2))
    then (fst (evaluate_bound m st1), Some m, snd (random st2))
    else (delta_max, munew, snd (random st2)).
Proof.
  intros Htie. unfold greedy_body.
  destruct (evaluate_bound m st1) as [d st2]. cbn [fst snd] in *.
  rewrite (eqb_not_ltb _ _ Htie), Htie. reflexivity.
Qed.

(** C4 (amended).  For every non-empty training set, iterated in its
    order, whose error bounds are non-negative numbers: the loop of [greedy]
    ends holding
    a parameter of the training set whose bound [delta_max] is the maximum of
    the bounds computed over the training set, and [greedy] sets it as the
    next [mu].  When a candidate's bound equals the running maximum exactly,
    one draw of [random.random()] is made and the incumbent is replaced when
    the draw is at least 0.5: exactly half of the 2^53 equally likely draws
    ([mirror] pairs each accepted draw with a rejected one). *)
Theorem greedy_selects_maximum (st : state World) :
  xi_train st <> [] ->
  (forall d, In d (observed_bounds (N st) (world st) (xi_train st)) ->
             (0 <=? d) = true) ->
  (exists k munew delta_max st1,
      greedy_loop (log (GreedyStep (N st)) st) = (delta_max, Some munew, st1) /\
      xi_train st !! k = Some munew /\
      observed_bounds (N st) (world st) (xi_train st) !! k = Some delta_max /\
      (forall d, In d (observed_bounds (N st) (world st) (xi_train st)) ->
                 (d <=? delta_max) = true) /\
      mu (state_of (greedy st)) = munew) /\
  (forall delta_max munew st1 m,
      (fst (evaluate_bound m st1) =? delta_max) = true ->
      greedy_body (delta_max, munew, st1) m
      = let st2 := snd (evaluate_bound m st1) in
        if ge_half (draws st2 (drawn st2))
        then (fst (evaluate_bound m st1), Some m, snd (random st2))
        else (delta_max, munew, snd (random st2))) /\
  (forall k, is_draw k ->
             is_draw (mirror k) /\ mirror (mirror k) = k /\
             ge_half (mirror k) = negb (ge_half k)).
Proof.
  intros Hne Hpos. split; [| split; [exact greedy_body_tie | exact mirror_draw]].
  destruct (greedy_fold_selected (xi_train st) [] [] (-1) None
              (log (GreedyStep (N st)) st))
    as (dm & mn & st1 & Hfold & Hsel & Hkeeps).
  { reflexivity. }
  { left. auto. }
  { exact Hpos. }
  cbn [app] in Hsel. change (N (log (GreedyStep (N st)) st)) with (N st) in Hsel.
  change (world (log (GreedyStep (N st)) st)) with (world st) in Hsel.
  destruct Hsel as [(Hnil & _ & _) | (k & m & Hk & Hko & -> & Hmax)];
    [contradiction |].
  exists k, m, dm, st1. unfold greedy, greedy_loop.
  change (xi_train (log (GreedyStep (N st)) st)) with (xi_train st).
  rewrite Hfold. repeat split; auto.
Qed.

End Greedy.

Lemma greedy_selects_maximum_witness :
  (exists k munew delta_max st1,
      greedy_loop (log (GreedyStep (N (toy_state 2 toy_train))) (toy_state 2 toy_train))
      = (delta_max, Some munew, st1) /\
      xi_train (toy_state 2 toy_train) !! k = Some munew /\
      observed_bounds (N (toy_state 2 toy_train)) (world (toy_state 2 toy_train))
        (xi_train (toy_state 2 toy_train)) !! k = Some delta_max /\
      (forall d, In d (observed_bounds (N (toy_state 2 toy_train))
                         (world (toy_state 2 toy_train))
                         (xi_train (toy_state 2 toy_train))) ->
                 (d <=? delta_max) = true) /\
      mu (state_of (greedy (toy_state 2 toy_train))) = munew) /\
  (forall delta_max munew (st1 : state Mu) m,
      (fst (evaluate_bound m st1) =? delta_max) = true ->
      greedy_body (delta_max, munew, st1) m
      = let st2 := snd (evaluate_bound m st1) in
        if ge_half (draws st2 (drawn st2))
        then (fst (evaluate_bound m st1), Some m, snd (random st2))
        else (delta_max, munew, snd (random st2))) /\
  (forall k, is_draw k ->
             is_draw (mirror k) /\ mirror (mirror k) = k /\
             ge_half (mirror k) = negb (ge_half k)).
Proof.
  apply (@greedy_selects_maximum Mu unit toy (toy_state 2 toy_train)).
  - discriminate.
  - intros d Hin. cbn in Hin.
    destruct Hin as [<- | [<- | [<- | []]]]; reflexivity.
Defined.

Section Offline.

Context {World Snapshot : Type} {collaborators : Collaborators World Snapshot}.

Lemma greedy_body_keeps (delta_max : float) (munew : option Mu)
  (st : state World) (m : Mu) :
  keeps st (snd (greedy_body (delta_max, munew, st) m)).
Proof.
  destruct (evaluate_bound_spec m st) as (st1 & Heval & _ & _ & Hkeeps).
  unfold greedy_body. rewrite Heval.
  destruct (random_keeps st1) as [_ Hk].
  destruct (random st1) as [k st2]. cbn [snd] in Hk.
  assert (keeps st st2) by (eapply keeps_trans; eauto).
  destruct (_ <? _); [exact Hkeeps |].
  destruct (_ =? _); [| exact Hkeeps].
  destruct (ge_half k); assumption.
Qed.

Lemma greedy_fold_keeps (mus : list Mu) (acc : float * option Mu * state World) :
  keeps (snd acc) (snd (fold_left greedy_body mus acc)).
Proof.
  revert acc. induction mus as [| m mus IH]; intros [[dm mn] st]; cbn [fold_left].
  - apply keeps_refl.
  - eapply keeps_trans; [| apply IH].
    apply greedy_body_keeps.
Qed.

(** A bound that is NaN is never selected. *)
Lemma greedy_fold_nan (mus : list Mu) (st : state World) :
  (forall d, In d (observed_bounds (N st) (world st) mus) -> is_nan d = true) ->
  exists st', fold_left greedy_body mus (-1, None, st) = (-1, None, st').
Proof.
  revert st. induction mus as [| m mus IH]; intros st Hnan; cbn [fold_left].
  - now exists st.
  - cbn [observed_bounds] in Hnan.
    destruct (evaluate_bound_spec m st) as (st1 & Heval & Hworld & _ & Hkeeps).
    unfold greedy_body at 2. rewrite Heval.
    rewrite nan_not_above, nan_not_equal by (apply Hnan; now left).
    apply IH. intros d Hin. apply Hnan. right.
    destruct Hkeeps as [HN _]. now rewrite HN, Hworld in Hin.
Qed.

(** C7 (amended).  When no candidate can be selected -- the training set
    is empty, or every bound evaluation yields NaN -- [greedy] fails with the
    AssertionError of [assert munew != None]: an unstructured assertion,
    raised before any parameter is set as the next one and before anything is
    written.  With an empty training set the state is left as it was found. *)
Theorem greedy_without_candidate (st : state World) :
  (forall d, In d (observed_bounds (N st) (world st) (xi_train st)) ->
             is_nan d = true) ->
  exists s,
    greedy st = Raised AssertionError s /\
    fs s = fs st /\
    (xi_train st = [] -> s = log (GreedyStep (N st)) st).
Proof.
  intros Hnan. unfold greedy, greedy_loop.
  pose proof (greedy_fold_keeps (xi_train (log (GreedyStep (N st)) st))
                (-1, None, log (GreedyStep (N st)) st)) as Hkeeps.
  destruct (greedy_fold_nan (xi_train st) (log (GreedyStep (N st)) st) Hnan)
    as (st1 & Hfold).
  change (xi_train (log (GreedyStep (N st)) st)) with (xi_train st) in *.
  rewrite Hfold in *. cbn [snd] in Hkeeps.
  exists st1. split; [reflexivity |]. split.
  - apply Hkeeps.
  - intros Hempty. rewrite Hempty in Hfold. cbn in Hfold. congruence.
Qed.



End Offline.

Lemma greedy_without_candidate_witness :
  exists s,
    greedy (toy_state 1 []) = Raised AssertionError s /\
    fs s = fs (toy_state 1 []) /\
    (xi_train (toy_state 1 []) = [] ->
     s = log (GreedyStep (N (toy_state 1 []))) (toy_state 1 [])).
Proof.
  apply (@greedy_without_candidate Mu unit toy (toy_state 1 [])).
  intros d Hin. destruct Hin.
Defined.

(** C7 does not hold: on an empty training set [greedy] fails with an
    unstructured AssertionError, not with an EmptyTrainingSet error. *)
Lemma greedy_empty_training_set_asserts :
  xi_train (toy_state 1 []) = [] /\
  (exists s, greedy (toy_state 1 []) = Raised AssertionError s) /\
  ~ (exists s,
        greedy (toy_state 1 []) = Raised (UserDefined "EmptyTrainingSet") s).
Proof.
  split; [reflexivity |]. split.
  - eexists. reflexivity.
  - intros [s Hs]. discriminate Hs.
Qed.

(** C4 does not hold for every non-empty training set: a bound below
    -1.0, or a bound that is NaN, is never selected; the loop ends holding
    nothing and [greedy] fails its assertion. *)
Lemma greedy_needs_nonnegative_bounds :
  (xi_train (toy_state 1 [[-2]]) <> [] /\
   (exists st1, greedy_loop (log (GreedyStep 0) (toy_state 1 [[-2]]))
                = (-1, None, st1)) /\
   exists s, greedy (toy_state 1 [[-2]]) = Raised AssertionError s) /\
  (xi_train (toy_state 1 [[nan]]) <> [] /\
   (exists st1, greedy_loop (log (GreedyStep 0) (toy_state 1 [[nan]]))
                = (-1, None, st1)) /\
   exists s, greedy (toy_state 1 [[nan]]) = Raised AssertionError s).
Proof.
  split; (split; [discriminate |]); split; eexists; vm_compute; reflexivity.
Qed.

(** [offline] on any state: [_init_offline] raises NameError at its first
    statement, and [offline] with it; nothing has been done. *)
Lemma offline_raises_at_once {World Snapshot : Type}
  {collaborators : Collaborators World Snapshot} (st : state World) :
  offline st = Raised NameError st.
Proof. reflexivity. Qed.

(** C3, as the code behaves at a concrete run.  With [Nmax = 2] and a
    training set of three parameters, no iteration is started, not two:
    [_init_offline] raises NameError at the name
    [EllipticCoerciveReductionMethodBase], before any folder is created and
    before the loop is entered; [N] is still 0 and no truth solve has been
    made. *)
Lemma offline_two_requested_none_started :
  Nmax (toy_state 2 toy_train) = 2%nat /\
  offline (toy_state 2 toy_train) = Raised NameError (toy_state 2 toy_train) /\
  truth_solves (trace (state_of (offline (toy_state 2 toy_train)))) = 0%nat /\
  N (state_of (offline (toy_state 2 toy_train))) = 0%nat /\
  trace (state_of (offline (toy_state 2 toy_train))) = [] /\
  dirs (fs (state_of (offline (toy_state 2 toy_train)))) = ∅.
Proof.
  split; [reflexivity |].
  rewrite (offline_raises_at_once (toy_state 2 toy_train)).
  repeat split.
Qed.

Section ErrorAnalysis.

Context {World Snapshot : Type} {collaborators : Collaborators World Snapshot}.

Lemma set_entry_same (t : table) n run v : set_entry t n run v n run = v.
Proof. unfold set_entry. now rewrite !Nat.eqb_refl. Qed.

Lemma set_entry_other (t : table) n run v n' run' :
  (n', run') <> (n, run) -> set_entry t n run v n' run' = t n' run'.
Proof.
  intros Hne. unfold set_entry.
  destruct (Nat.eqb_spec n' n) as [-> |]; [| reflexivity].
  destruct (Nat.eqb_spec run' run) as [-> |]; [contradiction | reflexivity].
Qed.

Lemma error_analysis_body_fills (run n : nat) (a : analysis) (st : state World) :
  filled (fst (error_analysis_body run n (a, st))) n run /\
  forall n' run', filled a n' run' ->
                  filled (fst (error_analysis_body run n (a, st))) n' run'.
Proof.
  unfold error_analysis_body.
  destruct (compute_error (S n) (mu st) (world st)) as [[eu es] w].
  cbn [fst].
  assert (Hhere : filled
                    {| error_u := set_entry (error_u a) n run eu;
                       delta_u := set_entry (delta_u a) n run (get_delta (world (with_world w st)));
                       effectivity_u :=
                         set_entry (effectivity_u a) n run
                           (set_entry (delta_u a) n run (get_delta (world (with_world w st))) n run
                            / set_entry (error_u a) n run eu n run);
                       error_s := set_entry (error_s a) n run es;
                       delta_s := set_entry (delta_s a) n run (get_delta_output (world (with_world w st)));
                       effectivity_s :=
                         set_entry (effectivity_s a) n run
                           (set_entry (delta_s a) n run (get_delta_output (world (with_world w st))) n run
                            / set_entry (error_s a) n run es n run) |} n run).
  { unfold filled. cbn. now rewrite !set_entry_same. }
  split; [exact Hhere |].
  intros n' run' [Hu Hs].
  destruct (decide ((n', run') = (n, run))) as [[= -> ->] | Hne]; [exact Hhere |].
  unfold filled. cbn. now rewrite !set_entry_other by exact Hne.
Qed.

Lemma error_analysis_inner_fills (run : nat) (ns : list nat) :
  forall (a : analysis) (st : state World),
    (forall n, In n ns ->
               filled (fst (fold_left (fun acc n => error_analysis_body run n acc)
                              ns (a, st))) n run) /\
    (forall n' run', filled a n' run' ->
                     filled (fst (fold_left (fun acc n => error_analysis_body run n acc)
                                    ns (a, st))) n' run').
Proof.
  induction ns as [| n ns IH]; intros a st; cbn [fold_left].
  - split; [intros n [] | auto].
  - destruct (error_analysis_body run n (a, st)) as [a1 st1] eqn:Hbody.
    destruct (error_analysis_body_fills run n a st) as [Hhere Hkept].
    rewrite Hbody in Hhere, Hkept. cbn [fst] in Hhere, Hkept.
    destruct (IH a1 st1) as [IH1 IH2]. split.
    + intros n0 [<- | Hin]; auto.
    + auto.
Qed.

Lemma error_analysis_outer_fills (xi_test : list Mu) (N : nat) (runs : list nat) :
  forall (a : analysis) (st : state World),
    (forall run n, In run runs -> (n < N)%nat ->
                   filled (fst (fold_left (error_analysis_run xi_test N) runs (a, st)))
                     n run) /\
    (forall n' run', filled a n' run' ->
                     filled (fst (fold_left (error_analysis_run xi_test N) runs (a, st)))
                       n' run').
Proof.
  induction runs as [| run runs IH]; intros a st; cbn [fold_left].
  - split; [intros run n [] | auto].
  - unfold error_analysis_run at 2 4.
    destruct (error_analysis_inner_fills run (seq 0 N) a
                (setmu (nth run xi_test []) st)) as [Hhere Hkept].
    destruct (fold_left _ (seq 0 N) _) as [a1 st1]. cbn [fst] in Hhere, Hkept.
    destruct (IH a1 st1) as [IH1 IH2]. split.
    + intros run0 n [<- | Hin] Hn; auto.
      apply IH2, Hhere, in_seq. lia.
    + auto.
Qed.

(** C8 (amended).  In the loops of the error analysis, for every test
    parameter and every intermediate dimension, the effectivity stored is the
    IEEE quotient of the stored bound by the stored true error, computed with
    no test of the divisor.  Where the true error is zero the quotient is an
    infinity when the bound is positive, and NaN when the bound is zero: no
    sentinel is substituted. *)
Theorem error_analysis_divides
  (xi_test : list Mu) (N0 : nat) (st : state World) (run n : nat) :
  (run < length xi_test)%nat ->
  (n < N0)%nat ->
  let a := fst (error_analysis_loops xi_test N0 st) in
  filled a n run /\
  ((error_u a n run =? 0) = true -> (0 <? delta_u a n run) = true ->
   is_infinity (effectivity_u a n run) = true) /\
  ((error_u a n run =? 0) = true -> (delta_u a n run =? 0) = true ->
   is_nan (effectivity_u a n run) = true) /\
  ((error_s a n run =? 0) = true -> (0 <? delta_s a n run) = true ->
   is_infinity (effectivity_s a n run) = true) /\
  ((error_s a n run =? 0) = true -> (delta_s a n run =? 0) = true ->
   is_nan (effectivity_s a n run) = true).
Proof.
  intros Hrun Hn a.
  assert (Hfilled : filled a n run).
  { subst a. unfold error_analysis_loops.
    match goal with
    | |- filled (fst (fold_left _ ?runs (?a0, _))) _ _ =>
        destruct (error_analysis_outer_fills xi_test N0 runs a0 st) as [Hall _]
    end.
    apply Hall; [apply in_seq; lia | exact Hn]. }
  split; [exact Hfilled |]. destruct Hfilled as [-> ->].
  repeat split; intros He Hd.
  - now apply div_zero_positive.
  - now apply div_zero_zero.
  - now apply div_zero_positive.
  - now apply div_zero_zero.
Qed.

End ErrorAnalysis.

Lemma error_analysis_divides_witness :
  let a := fst (error_analysis_loops [[1]] 1%nat (toy_state 1 toy_train)) in
  filled a 0%nat 0%nat /\
  ((error_u a 0%nat 0%nat =? 0) = true -> (0 <? delta_u a 0%nat 0%nat) = true ->
   is_infinity (effectivity_u a 0%nat 0%nat) = true) /\
  ((error_u a 0%nat 0%nat =? 0) = true -> (delta_u a 0%nat 0%nat =? 0) = true ->
   is_nan (effectivity_u a 0%nat 0%nat) = true) /\
  ((error_s a 0%nat 0%nat =? 0) = true -> (0 <? delta_s a 0%nat 0%nat) = true ->
   is_infinity (effectivity_s a 0%nat 0%nat) = true) /\
  ((error_s a 0%nat 0%nat =? 0) = true -> (delta_s a 0%nat 0%nat =? 0) = true ->
   is_nan (effectivity_s a 0%nat 0%nat) = true).
Proof.
  apply (@error_analysis_divides Mu unit toy [[1]] 1%nat
           (toy_state 1 toy_train) 0%nat 0%nat).
  - cbn. lia.
  - lia.
Defined.

(** C8 does not hold.  On one test parameter at which the true error is
    zero and the bound is 1, [error_analysis] reports no sentinel: it raises
    NameError at [np.zeros], before any parameter is set, so the batch is
    aborted; and its loops, run on that input, store +infinity, which is not
    a NaN, let alone a sentinel. *)
Lemma zero_error_has_no_sentinel :
  error_analysis [[1]] (Some 1%nat) (toy_state 1 toy_train)
  = Raises NameError (toy_state 1 toy_train) /\
  (error_u (fst (error_analysis_loops [[1]] 1%nat (toy_state 1 toy_train)))
     0%nat 0%nat =? 0) = true /\
  delta_u (fst (error_analysis_loops [[1]] 1%nat (toy_state 1 toy_train)))
    0%nat 0%nat = 1 /\
  effectivity_u (fst (error_analysis_loops [[1]] 1%nat (toy_state 1 toy_train)))
    0%nat 0%nat = infinity /\
  is_nan (effectivity_u (fst (error_analysis_loops [[1]] 1%nat (toy_state 1 toy_train)))
            0%nat 0%nat) = false.
Proof. split; [reflexivity |]. vm_compute. auto. Qed.

(** *** The loop of [greedy]: calls, draws and ties *)

Section GreedyLoop.

Context {World Snapshot : Type} {collaborators : Collaborators World Snapshot}.

Lemma greedy_body_trace (dm : float) (mn : option Mu) (st : state World) (m : Mu) :
  exists dm' mn' st',
    greedy_body (dm, mn, st) m = (dm', mn', st') /\
    trace st' = trace st ++ loop_events (N st) (world st) [m] /\
    N st' = N st /\
    world st' = reduced_solve (N st) m (world st) /\
    (mn' = mn \/ mn' = Some m).
Proof.
  unfold greedy_body, evaluate_bound. cbn.
  destruct (_ <? _); [| destruct (_ =? _); [destruct (ge_half _) |]];
    do 3 eexists; (split; [reflexivity |]); cbn; rewrite <- !app_assoc; cbn; auto.
Qed.

Lemma greedy_fold_trace (mus : list Mu) :
  forall (dm : float) (mn : option Mu) (st : state World),
  exists dm' mn' st',
    fold_left greedy_body mus (dm, mn, st) = (dm', mn', st') /\
    trace st' = trace st ++ loop_events (N st) (world st) mus /\
    (mn' = mn \/ exists m, In m mus /\ mn' = Some m).
Proof.
  induction mus as [| m mus IH]; intros dm mn st.
  - exists dm, mn, st. cbn. rewrite app_nil_r. auto.
  - destruct (greedy_body_trace dm mn st m)
      as (dm1 & mn1 & st1 & Hbody & Htrace & HN & Hworld & Hmn).
    destruct (IH dm1 mn1 st1) as (dm2 & mn2 & st2 & Hfold & Htrace2 & Hmn2).
    exists dm2, mn2, st2. cbn [fold_left]. rewrite Hbody.
    split; [exact Hfold |]. split.
    + rewrite Htrace2, Htrace, HN, Hworld. cbn. now rewrite <- !app_assoc.
    + destruct Hmn2 as [-> | (m' & Hin & ->)].
      * destruct Hmn as [-> | ->]; [now left |]. right. exists m. split; [now left | reflexivity].
      * right. exists m'. split; [now right | reflexivity].
Qed.

(** [greedy] evaluates the bound of every parameter of the training set once,
    in the order of the set and at the same [N], whatever it selects on the
    way; nothing else is called before the selected parameter, which belongs
    to the training set, is set. *)
Theorem greedy_evaluates_every_parameter (st : state World) :
  exists tail,
    trace (state_of (greedy st))
    = trace st ++ GreedyStep (N st)
        :: loop_events (N st) (world st) (xi_train st) ++ tail /\
    (tail = [] \/
     exists m, In m (xi_train st) /\ tail = [SetMu m] /\
               mu (state_of (greedy st)) = m).
Proof.
  unfold greedy, greedy_loop.
  destruct (greedy_fold_trace (xi_train (log (GreedyStep (N st)) st)) (-1) None
              (log (GreedyStep (N st)) st))
    as (dm & mn & st1 & Hfold & Htrace & Hmn).
  rewrite Hfold. cbn in Htrace, Hmn.
  destruct Hmn as [-> | (m & Hin & ->)].
  - exists []. cbn. rewrite Htrace, app_nil_r, <- app_assoc. split; [reflexivity | now left].
  - exists [SetMu m]. split.
    + rewrite save_is_unbound. cbn.
      rewrite Htrace, <- !app_assoc. reflexivity.
    + right. exists m. split; [exact Hin |]. split; [reflexivity |].
      rewrite save_is_unbound. reflexivity.
Qed.

Lemma greedy_fold_no_draw (mus : list Mu) :
  forall (seen : list float) (dm : float) (mn : option Mu) (st : state World),
    (dm = -1 \/ In dm seen) ->
    no_tie (seen ++ observed_bounds (N st) (world st) mus) ->
    drawn (snd (fold_left greedy_body mus (dm, mn, st))) = drawn st.
Proof.
  induction mus as [| m mus IH]; intros seen dm mn st Hdm Hno; [reflexivity |].
  cbn [fold_left observed_bounds] in *.
  destruct (evaluate_bound_spec m st) as (st1 & Heval & Hworld & Hdrawn & Hkeeps).
  set (d := get_delta (reduced_solve (N st) m (world st))) in *.
  assert (HN : N st1 = N st) by apply Hkeeps.
  assert (Hnext : no_tie ((seen ++ [d]) ++ observed_bounds (N st1) (world st1) mus)).
  { rewrite HN, Hworld, <- app_assoc. exact Hno. }
  unfold greedy_body at 2. rewrite Heval.
  destruct (dm <? d).
  - rewrite (IH (seen ++ [d]) d (Some m) st1); [exact Hdrawn | | exact Hnext].
    right. apply in_or_app. right. now left.
  - assert (Htie : (d =? dm) = false).
    { destruct Hno as [Hminus Hpair]. destruct Hdm as [-> | Hin].
      - apply Hminus. apply in_or_app. right. now left.
      - apply list_elem_of_In, list_elem_of_lookup_1 in Hin as (i & Hi).
        apply (Hpair i (length seen)).
        + eapply lookup_lt_Some; eassumption.
        + now apply lookup_app_l_Some.
        + rewrite lookup_app_r by lia. now rewrite Nat.sub_diag. }
    rewrite Htie.
    rewrite (IH (seen ++ [d]) dm mn st1); [exact Hdrawn | | exact Hnext].
    destruct Hdm as [-> | Hin]; [now left |]. right. apply in_or_app. now left.
Qed.

(** [random.random()] is called only on a tie: when no bound equals [-1.0] or
    an earlier bound, [greedy] makes no draw, and leaves the generator where
    it was. *)
Theorem greedy_draws_only_on_ties (st : state World) :
  no_tie (observed_bounds (N st) (world st) (xi_train st)) ->
  drawn (state_of (greedy st)) = drawn st /\
  draws (state_of (greedy st)) = draws st.
Proof.
  intros Hno.
  pose proof (greedy_fold_no_draw (xi_train st) [] (-1) None
                (log (GreedyStep (N st)) st) (or_introl eq_refl) Hno) as Hdrawn.
  pose proof (greedy_fold_keeps (xi_train st) (-1, None, log (GreedyStep (N st)) st))
    as Hkeeps.
  unfold greedy, greedy_loop.
  change (xi_train (log (GreedyStep (N st)) st)) with (xi_train st).
  destruct (fold_left greedy_body (xi_train st) (-1, None, log (GreedyStep (N st)) st))
    as [[dm mn] st1].
  cbn [snd] in Hdrawn, Hkeeps. destruct Hkeeps as (_ & _ & _ & _ & Hdraws & _).
  destruct mn as [m |]; [| now split].
  rewrite save_is_unbound. cbn. now split.
Qed.

End GreedyLoop.

Lemma greedy_draws_only_on_ties_witness :
  drawn (state_of (greedy (toy_state 2 toy_train))) = 0%nat /\
  draws (state_of (greedy (toy_state 2 toy_train))) = draws (toy_state 2 toy_train).
Proof.
  apply (@greedy_draws_only_on_ties Mu unit toy (toy_state 2 toy_train)).
  split.
  - intros d [<- | [<- | [<- | []]]]; reflexivity.
  - intros i j d d' Hij Hi Hj.
    destruct i as [| [| [| i]]]; destruct j as [| [| [| j]]];
      try lia; try discriminate;
      cbn in Hi, Hj; injection Hi as <-; injection Hj as <-; reflexivity.
Defined.

(** *** Ties when every draw falls on the same side *)

Section TieBreak.

Context {World Snapshot : Type} {collaborators : Collaborators World Snapshot}.

Variable last : bool.

Lemma greedy_body_extreme (seen_mus : list Mu) (seen_obs : list float)
  (delta_max : float) (munew : option Mu) (st : state World) (m : Mu) :
  length seen_mus = length seen_obs ->
  selected_extreme last seen_mus seen_obs delta_max munew ->
  (forall d, In d seen_obs -> (0 <=? d) = true) ->
  (0 <=? get_delta (reduced_solve (N st) m (world st))) = true ->
  (forall i, ge_half (draws st i) = last) ->
  exists delta_max' munew' st',
    greedy_body (delta_max, munew, st) m = (delta_max', munew', st') /\
    selected_extreme last (seen_mus ++ [m])
      (seen_obs ++ [get_delta (reduced_solve (N st) m (world st))])
      delta_max' munew' /\
    world st' = reduced_solve (N st) m (world st) /\
    keeps st st'.
Proof.
  intros Hlen Hsel Hseen Hd Hdraws.
  destruct (evaluate_bound_spec m st) as (st1 & Heval & Hworld & _ & Hkeeps).
  unfold greedy_body. rewrite Heval.
  set (d := get_delta (reduced_solve (N st) m (world st))) in *.
  assert (Hnew_at : (seen_mus ++ [m]) !! length seen_obs = Some m).
  { rewrite <- Hlen, lookup_app_r by lia. now rewrite Nat.sub_diag. }
  assert (Hobs_at : (seen_obs ++ [d]) !! length seen_obs = Some d).
  { rewrite lookup_app_r by lia. now rewrite Nat.sub_diag. }
  assert (Hin_seen : forall j d0, (j < length seen_obs)%nat ->
                       (seen_obs ++ [d]) !! j = Some d0 ->
                       seen_obs !! j = Some d0 /\ In d0 seen_obs).
  { intros j d0 Hj Hl. rewrite lookup_app_l in Hl by exact Hj.
    split; [exact Hl |]. eapply list_elem_of_In, list_elem_of_lookup_2; eassumption. }
  assert (Hstart : (delta_max <? d) = false ->
                   exists k m0,
                     seen_mus !! k = Some m0 /\ munew = Some m0 /\
                     extreme_maximum last seen_obs k delta_max).
  { intros Hlt. destruct Hsel as [(_ & _ & ->) | Hsel]; [| exact Hsel].
    rewrite (nonneg_above_minus_one d Hd) in Hlt. discriminate. }
  assert (Hreplace : (forall d0, In d0 seen_obs -> (d0 <=? d) = true) ->
                     (last = false ->
                      forall d0, In d0 seen_obs -> (d0 <? d) = true) ->
                     selected_extreme last (seen_mus ++ [m]) (seen_obs ++ [d]) d (Some m)).
  { intros Hmax Hbefore. right. exists (length seen_obs), m.
    split; [exact Hnew_at |]. split; [reflexivity |].
    split; [exact Hobs_at |]. split.
    - intros d0 Hin. apply in_app_or in Hin as [Hin | [<- | []]]; [auto |].
      now apply (leb_refl 0).
    - intros j d0 Hj Hl. destruct last.
      + apply lookup_lt_Some in Hl. rewrite length_app in Hl. cbn in Hl. lia.
      + apply Hbefore; [reflexivity |]. now apply (Hin_seen j). }
  assert (Hkeep : (d <=? delta_max) = true ->
                  (delta_max <? d) = false ->
                  (last = true -> (d <? delta_max) = true) ->
                  selected_extreme last (seen_mus ++ [m]) (seen_obs ++ [d])
                    delta_max munew).
  { intros Hle Hlt Hafter.
    destruct (Hstart Hlt) as (k & m0 & Hk & -> & Hko & Hmax & Horder).
    pose proof (lookup_lt_Some _ _ _ Hko) as Hklt.
    right. exists k, m0.
    split; [now apply lookup_app_l_Some |]. split; [reflexivity |].
    split; [now apply lookup_app_l_Some |]. split.
    - intros d0 Hin. apply in_app_or in Hin as [Hin | [<- | []]]; auto.
    - intros j d0 Hj Hl. destruct last.
      + destruct (Nat.lt_ge_cases j (length seen_obs)) as [Hjlt | Hjge].
        * apply (Horder j); [exact Hj |]. now apply (Hin_seen j).
        * pose proof (lookup_lt_Some _ _ _ Hl) as Hjl.
          rewrite length_app in Hjl. cbn in Hjl.
          assert (j = length seen_obs) as -> by lia.
          rewrite Hobs_at in Hl. injection Hl as <-. now apply Hafter.
      + apply (Horder j); [exact Hj |]. apply (Hin_seen j); [lia | exact Hl]. }
  destruct (delta_max <? d) eqn:Hlt.
  - exists d, (Some m), st1.
    split; [reflexivity |]. split; [| split; assumption].
    destruct Hsel as [(-> & _ & _) | (k & m0 & _ & _ & _ & Hmax & _)].
    + destruct seen_obs; [| discriminate].
      apply Hreplace; [intros d0 [] | intros _ d0 []].
    + apply Hreplace.
      * intros d0 Hin. apply leb_ltb_trans with (b := delta_max); auto.
      * intros _ d0 Hin. apply leb_ltb_strict with (b := delta_max); auto.
  - destruct (d =? delta_max) eqn:Heq.
    + destruct (random_keeps st1) as [Hw Hk].
      assert (Hside : ge_half (draws st1 (drawn st1)) = last).
      { destruct Hkeeps as (_ & _ & _ & _ & -> & _). apply Hdraws. }
      destruct (random st1) as [k0 st2] eqn:Hrandom. cbn [snd] in Hw, Hk.
      assert (Hk0 : k0 = draws st1 (drawn st1))
        by (unfold random in Hrandom; now injection Hrandom).
      rewrite Hk0, Hside.
      assert (Hworld2 : world st2 = reduced_solve (N st) m (world st)) by congruence.
      assert (Hkeeps2 : keeps st st2) by (eapply keeps_trans; eauto).
      destruct last eqn:Hlast.
      * exists d, (Some m), st2.
        split; [reflexivity |]. split; [| split; assumption].
        destruct (Hstart eq_refl) as (_ & _ & _ & _ & _ & Hmax & _).
        apply Hreplace; [| discriminate].
        intros d0 Hin. apply leb_eqb_trans with (b := delta_max); auto.
      * exists delta_max, munew, st2.
        split; [reflexivity |]. split; [| split; assumption].
        apply Hkeep; [now apply eqb_leb | reflexivity | discriminate].
    + exists delta_max, munew, st1.
      split; [reflexivity |]. split; [| split; assumption].
      destruct (Hstart eq_refl) as (k & _ & _ & _ & Hko & _ & _).
      assert (Hpos_max : (0 <=? delta_max) = true).
      { apply Hseen. eapply list_elem_of_In, list_elem_of_lookup_2; eassumption. }
      apply Hkeep; [| reflexivity |].
      * apply leb_total with (c := 0); auto.
      * intros _. apply ltb_or_eqb with (c := 0); auto.
Qed.

Lemma greedy_fold_extreme (mus : list Mu) :
  forall (seen_mus : list Mu) (seen_obs : list float)
         (delta_max : float) (munew : option Mu) (st : state World),
    length seen_mus = length seen_obs ->
    selected_extreme last seen_mus seen_obs delta_max munew ->
    (forall d, In d (seen_obs ++ observed_bounds (N st) (world st) mus) ->
               (0 <=? d) = true) ->
    (forall i, ge_half (draws st i) = last) ->
    exists delta_max' munew' st',
      fold_left greedy_body mus (delta_max, munew, st) = (delta_max', munew', st') /\
      selected_extreme last (seen_mus ++ mus)
        (seen_obs ++ observed_bounds (N st) (world st) mus) delta_max' munew'.
Proof.
  induction mus as [| m mus IH];
    intros seen_mus seen_obs delta_max munew st Hlen Hsel Hpos Hdraws.
  - exists delta_max, munew, st. cbn. rewrite !app_nil_r. auto.
  - cbn [observed_bounds] in *.
    set (d := get_delta (reduced_solve (N st) m (world st))) in *.
    destruct (greedy_body_extreme seen_mus seen_obs delta_max munew st m)
      as (dm1 & mn1 & st1 & Hbody & Hsel1 & Hworld & Hkeeps); auto.
    { intros d0 Hin. apply Hpos. apply in_or_app. now left. }
    { apply Hpos. apply in_or_app. right. now left. }
    fold d in Hsel1.
    assert (HN : N st1 = N st) by apply Hkeeps.
    assert (Hdr : draws st1 = draws st) by apply Hkeeps.
    destruct (IH (seen_mus ++ [m]) (seen_obs ++ [d]) dm1 mn1 st1)
      as (dm2 & mn2 & st2 & Hfold & Hsel2).
    { rewrite !length_app. cbn. lia. }
    { exact Hsel1. }
    { rewrite HN, Hworld, <- app_assoc. exact Hpos. }
    { now rewrite Hdr. }
    exists dm2, mn2, st2. cbn [fold_left]. rewrite Hbody.
    split; [exact Hfold |].
    rewrite HN, Hworld, <- !app_assoc in Hsel2. exact Hsel2.
Qed.

(** When the bounds are non-negative numbers and every draw is at least 0.5,
    [greedy] selects the parameter at the last position of the maximum bound;
    when every draw is below 0.5, the parameter at its first position. *)
Theorem greedy_tie_break (st : state World) :
  xi_train st <> [] ->
  (forall d, In d (observed_bounds (N st) (world st) (xi_train st)) ->
             (0 <=? d) = true) ->
  (forall i, ge_half (draws st i) = last) ->
  exists k munew delta_max,
    xi_train st !! k = Some munew /\
    extreme_maximum last (observed_bounds (N st) (world st) (xi_train st))
      k delta_max /\
    mu (state_of (greedy st)) = munew.
Proof.
  intros Hne Hpos Hdraws.
  destruct (greedy_fold_extreme (xi_train st) [] [] (-1) None
              (log (GreedyStep (N st)) st))
    as (dm & mn & st1 & Hfold & Hsel).
  { reflexivity. }
  { left. auto. }
  { exact Hpos. }
  { exact Hdraws. }
  cbn [app] in Hsel. change (N (log (GreedyStep (N st)) st)) with (N st) in Hsel.
  change (world (log (GreedyStep (N st)) st)) with (world st) in Hsel.
  destruct Hsel as [(Hnil & _ & _) | (k & m & Hk & -> & Hext)];
    [contradiction |].
  exists k, m, dm. unfold greedy, greedy_loop.
  change (xi_train (log (GreedyStep (N st)) st)) with (xi_train st).
  rewrite Hfold. split; [exact Hk |]. split; [exact Hext |].
  rewrite save_is_unbound. reflexivity.
Qed.

End TieBreak.

Lemma greedy_tie_break_witness :
  exists k munew delta_max,
    xi_train (toy_state 2 tie_train) !! k = Some munew /\
    extreme_maximum false
      (observed_bounds (N (toy_state 2 tie_train)) (world (toy_state 2 tie_train))
         (xi_train (toy_state 2 tie_train))) k delta_max /\
    mu (state_of (greedy (toy_state 2 tie_train))) = munew.
Proof.
  apply (@greedy_tie_break Mu unit toy false (toy_state 2 tie_train)).
  - discriminate.
  - intros d [<- | [<- | [<- | []]]]; reflexivity.
  - reflexivity.
Defined.

End RBFacts.

(** ** The SCM-decorated reduction method *)

Module SCMFacts.

Import RB SCM.

Section Decorated.

Context {Method : Type} {D : Decorated Method} {L : SetMuLaw D}.

(** C10. For every invocation of the decorated [offline]: the truth
    problem's [mu] is saved before the SCM offline phase runs; when that phase
    completes, the parent's [offline] is invoked on the state the phase left
    with [mu] set back to the saved value, so that it starts from the [mu] the
    decorated [offline] was called with; when that phase raises, the parent's
    [offline] is not invoked at all. *)
Theorem offline_restores_mu (s : Method) :
  match SCM_reduction_offline s with
  | Done s1 =>
      offline s = parent_offline (truth_problem_set_mu (truth_problem_mu s) s1) /\
      truth_problem_mu (truth_problem_set_mu (truth_problem_mu s) s1)
      = truth_problem_mu s
  | Raised e s1 => offline s = Raised e s1
  end.
Proof.
  unfold offline. destruct (SCM_reduction_offline s) as [s1 | e s1].
  - split; [reflexivity | apply mu_set_mu].
  - reflexivity.
Qed.

End Decorated.

Lemma toy_set_mu_law : SetMuLaw toy_decorated.
Proof. split. reflexivity. Qed.

Lemma offline_restores_mu_witness :
  match SCM_reduction_offline (toy_state 2 toy_train) with
  | Done s1 =>
      SCM.offline (toy_state 2 toy_train)
      = parent_offline
          (truth_problem_set_mu (truth_problem_mu (toy_state 2 toy_train)) s1) /\
      truth_problem_mu
        (truth_problem_set_mu (truth_problem_mu (toy_state 2 toy_train)) s1)
      = truth_problem_mu (toy_state 2 toy_train)
  | Raised e s1 => SCM.offline (toy_state 2 toy_train) = Raised e s1
  end.
Proof.
  exact (@offline_restores_mu (state Mu) toy_decorated toy_set_mu_law
           (toy_state 2 toy_train)).
Defined.

End SCMFacts.

(** ** The reduced mesh *)

Module ReducedMeshFacts.

Import ReducedMesh.

Lemma append_recorded (s : state) (dofs : list nat) :
  dofs ∈ reduced_mesh_dofs_list s -> append s dofs = s.
Proof. intros Hin. unfold append. now rewrite bool_decide_eq_true_2. Qed.

Lemma append_records (s : state) (dofs : list nat) :
  dofs ∈ reduced_mesh_dofs_list (append s dofs).
Proof.
  unfold append. case_bool_decide; [assumption |].
  cbn. apply elem_of_app. right. now left.
Qed.

(** Once appended, the cells touching the DOFs of a tuple stay in the
    accumulated cell set. *)
Lemma reachable_cells (spaces : list FunctionSpace) (s : state) :
  reachable spaces s ->
  V s = spaces /\
  forall dofs, dofs ∈ reduced_mesh_dofs_list s ->
               cells_of spaces dofs ⊆ reduced_mesh_cells s.
Proof.
  induction 1 as [| s dofs Hreach [HV IH]].
  - split; [reflexivity |]. cbn. intros dofs Hin. inversion Hin.
  - unfold append. case_bool_decide; [auto |]. cbn. split; [exact HV |].
    intros dofs' Hin. apply elem_of_app in Hin as [Hin | Hin].
    + specialize (IH dofs' Hin). set_solver.
    + apply list_elem_of_singleton in Hin as ->. rewrite HV. set_solver.
Qed.

(** C6. For every state of the reduced mesh, appending a DOF tuple that
    was already appended leaves [get_dofs_list()] and
    [get_reduced_dofs_list()] unchanged in length and content, and the
    accumulated cell set and the reduced function spaces unchanged; in a state
    grown by [append] the cells touching the tuple's DOFs are all in the
    accumulated cell set already. *)
Theorem append_again_changes_nothing (s : state) (dofs : list nat) :
  dofs ∈ get_dofs_list s ->
  get_dofs_list (append s dofs) = get_dofs_list s /\
  get_reduced_dofs_list (append s dofs) = get_reduced_dofs_list s /\
  length (get_dofs_list (append s dofs)) = length (get_dofs_list s) /\
  length (get_reduced_dofs_list (append s dofs)) = length (get_reduced_dofs_list s) /\
  reduced_mesh_cells (append s dofs) = reduced_mesh_cells s /\
  get_reduced_function_spaces (append s dofs) = get_reduced_function_spaces s /\
  (reachable (V s) s ->
   reduced_mesh_cells s ∪ cells_of (V s) dofs = reduced_mesh_cells s).
Proof.
  intros Hin. rewrite (append_recorded s dofs Hin).
  repeat split; try reflexivity.
  intros Hreach. destruct (reachable_cells (V s) s Hreach) as [_ Hcells].
  specialize (Hcells dofs Hin).
  rewrite (comm_L (∪)). now apply subseteq_union_1_L.
Qed.

Lemma append_again_changes_nothing_witness :
  get_dofs_list (append grown [4; 4]%nat) = get_dofs_list grown /\
  get_reduced_dofs_list (append grown [4; 4]%nat) = get_reduced_dofs_list grown /\
  length (get_dofs_list (append grown [4; 4]%nat)) = length (get_dofs_list grown) /\
  length (get_reduced_dofs_list (append grown [4; 4]%nat))
  = length (get_reduced_dofs_list grown) /\
  reduced_mesh_cells (append grown [4; 4]%nat) = reduced_mesh_cells grown /\
  get_reduced_function_spaces (append grown [4; 4]%nat)
  = get_reduced_function_spaces grown /\
  (reachable (V grown) grown ->
   reduced_mesh_cells grown ∪ cells_of (V grown) [4; 4]%nat = reduced_mesh_cells grown).
Proof.
  apply (append_again_changes_nothing grown [4; 4]%nat).
  vm_compute. apply list_elem_of_here.
Defined.

End ReducedMeshFacts.

(** ** String-named components of function spaces *)

Module FunctionSpaceFacts.

Import FunctionSpace.

Lemma recursive_list (l : list pyvalue) d i :
  _init_component_to_index__recursive (PyList l) d i = for_component l i d.
Proof.
  cbn. revert d. induction l as [| c l IH]; intros d; [reflexivity |].
  cbn. destruct (_init_component_to_index__recursive c d i); [apply IH | reflexivity].
Qed.

Lemma recursive_tuple (l : list pyvalue) d i :
  _init_component_to_index__recursive (PyTuple l) d i = for_subcomponent l i 0 d.
Proof.
  cbn. generalize 0%nat. revert d. induction l as [| c l IH]; intros d k; [reflexivity |].
  cbn. destruct (_init_component_to_index__recursive c d _); [apply IH | reflexivity].
Qed.

(** The recursion completes on the components it accepts, storing their
    names and no other; on any other component the assertion fails. *)
Lemma recursive_completes (c : pyvalue) :
  forall d i,
    if well_formed c
    then exists d', _init_component_to_index__recursive c d i = Done d' /\
                    dom d' = dom d ∪ list_to_set (names c)
    else exists d', _init_component_to_index__recursive c d i = Raised AssertionError d'.
Proof.
  induction c as [| n | s | l IH | l IH] using pyvalue_nested_ind; intros d i.
  - cbn. eauto.
  - cbn. eauto.
  - cbn. eexists. split; [reflexivity |].
    rewrite dom_insert_L, (right_id_L ∅ (∪)). apply (comm_L (∪)).
  - rewrite recursive_tuple. cbn [well_formed names].
    generalize 0%nat. revert d.
    induction IH as [| c l Hc _ IHl]; intros d k; cbn.
    + exists d. split; [reflexivity | now rewrite (right_id_L ∅ (∪))].
    + specialize (Hc d (IndexList (full_index_of i ++ [k]))).
      destruct (well_formed c); cbn.
      * destruct Hc as (d1 & -> & Hdom1). specialize (IHl d1 (S k)).
        destruct (forallb well_formed l).
        -- destruct IHl as (d2 & -> & Hdom2). exists d2. split; [reflexivity |].
           now rewrite Hdom2, Hdom1, list_to_set_app_L, (assoc_L (∪)).
        -- exact IHl.
      * destruct Hc as (d1 & ->). eauto.
  - rewrite recursive_list. cbn [well_formed names]. revert d.
    induction IH as [| c l Hc _ IHl]; intros d; cbn.
    + exists d. split; [reflexivity | now rewrite (right_id_L ∅ (∪))].
    + specialize (Hc d i).
      destruct (well_formed c); cbn.
      * destruct Hc as (d1 & -> & Hdom1). specialize (IHl d1).
        destruct (forallb well_formed l).
        -- destruct IHl as (d2 & -> & Hdom2). exists d2. split; [reflexivity |].
           now rewrite Hdom2, Hdom1, list_to_set_app_L, (assoc_L (∪)).
        -- exact IHl.
      * destruct Hc as (d1 & ->). eauto.
Qed.

Lemma for_enumerate_completes (l : list pyvalue) :
  forall k d,
    if forallb well_formed l
    then exists d', for_enumerate l k d = Done d' /\
                    dom d' = dom d ∪ list_to_set (flat_map names l)
    else exists d', for_enumerate l k d = Raised AssertionError d'.
Proof.
  induction l as [| c l IH]; intros k d; cbn.
  - exists d. split; [reflexivity | now rewrite (right_id_L ∅ (∪))].
  - pose proof (recursive_completes c d (IndexInt k)) as Hc.
    destruct (well_formed c); cbn.
    + destruct Hc as (d1 & -> & Hdom1). specialize (IH (S k) d1).
      destruct (forallb well_formed l).
      * destruct IH as (d2 & -> & Hdom2). exists d2. split; [reflexivity |].
        now rewrite Hdom2, Hdom1, list_to_set_app_L, (assoc_L (∪)).
      * exact IH.
    + destruct Hc as (d1 & ->). eauto.
Qed.

(** *** What is stored for which name *)

Lemma assigned_names c i s v : assigned c i s v -> In s (names c).
Proof.
  induction 1 as [s i | l c i s v Hin _ IH | l k c i s v Hnth _ IH]; cbn.
  - now left.
  - apply in_flat_map. eauto.
  - apply in_flat_map. exists c. split; [| exact IH].
    eapply nth_error_In; eassumption.
Qed.

Lemma assigned_stored c i s v : assigned c i s v -> exists i', v = stored i'.
Proof. induction 1; eauto. Qed.

(** The recursion leaves the entries of all other names as they are, also
    when it raises. *)
Lemma recursive_other (c : pyvalue) :
  forall d i s, ~ In s (names c) ->
    state_of (_init_component_to_index__recursive c d i) !! s = d !! s.
Proof.
  induction c as [| n | s0 | l IH | l IH] using pyvalue_nested_ind; intros d i s Hs.
  - reflexivity.
  - reflexivity.
  - cbn in *. apply lookup_insert_ne. intuition.
  - rewrite recursive_tuple. cbn [names] in Hs. generalize 0%nat. revert d.
    induction IH as [| c l Hc _ IHl]; intros d k; [reflexivity |].
    cbn [flat_map] in Hs. rewrite in_app_iff in Hs. cbn.
    specialize (Hc d (IndexList (full_index_of i ++ [k])) s ltac:(tauto)).
    destruct (_init_component_to_index__recursive c d _) as [d1 | e d1]; cbn in Hc.
    + rewrite IHl by tauto. exact Hc.
    + exact Hc.
  - rewrite recursive_list. cbn [names] in Hs. revert d.
    induction IH as [| c l Hc _ IHl]; intros d; [reflexivity |].
    cbn [flat_map] in Hs. rewrite in_app_iff in Hs. cbn.
    specialize (Hc d i s ltac:(tauto)).
    destruct (_init_component_to_index__recursive c d i) as [d1 | e d1]; cbn in Hc.
    + rewrite IHl by tauto. exact Hc.
    + exact Hc.
Qed.

Lemma for_component_other l : forall d i s, ~ In s (flat_map names l) ->
  state_of (for_component l i d) !! s = d !! s.
Proof.
  intros d i s Hs. rewrite <- recursive_list. now apply recursive_other.
Qed.

Lemma for_subcomponent_other l : forall d i k s, ~ In s (flat_map names l) ->
  state_of (for_subcomponent l i k d) !! s = d !! s.
Proof.
  induction l as [| c l IH]; intros d i k s Hs; [reflexivity |].
  cbn [flat_map] in Hs. rewrite in_app_iff in Hs. cbn.
  pose proof (recursive_other c d (IndexList (full_index_of i ++ [k])) s
                ltac:(tauto)) as Hc.
  destruct (_init_component_to_index__recursive c d _) as [d1 | e d1]; cbn in Hc.
  - rewrite IH by tauto. exact Hc.
  - exact Hc.
Qed.

Lemma for_enumerate_other l : forall d k s, ~ In s (flat_map names l) ->
  state_of (for_enumerate l k d) !! s = d !! s.
Proof.
  induction l as [| c l IH]; intros d k s Hs; [reflexivity |].
  cbn [flat_map] in Hs. rewrite in_app_iff in Hs. cbn.
  pose proof (recursive_other c d (IndexInt k) s ltac:(tauto)) as Hc.
  destruct (_init_component_to_index__recursive c d _) as [d1 | e d1]; cbn in Hc.
  - rewrite IH by tauto. exact Hc.
  - exact Hc.
Qed.

Lemma NoDup_app_In {A} (l k : list A) :
  NoDup (l ++ k) -> NoDup l /\ NoDup k /\ forall x, In x l -> ~ In x k.
Proof.
  intros H. apply NoDup_app in H as (Hl & Hd & Hk). split; [| split]; try assumption.
  intros x Hx Hx'. apply (Hd x); now apply list_elem_of_In.
Qed.

(** When no name occurs twice, the recursion stores for every name the index
    under which it was met. *)
Lemma recursive_assigns (c : pyvalue) :
  forall d i d', _init_component_to_index__recursive c d i = Done d' ->
    NoDup (names c) ->
    forall s v, assigned c i s v -> d' !! s = Some v.
Proof.
  induction c as [| n | s0 | l IH | l IH] using pyvalue_nested_ind;
    intros d i d' Hrun Hnd s v Ha.
  - inversion Ha.
  - inversion Ha.
  - inversion Ha; subst. cbn in Hrun. injection Hrun as <-. apply lookup_insert_eq.
  - rewrite recursive_tuple in Hrun. cbn [names] in Hnd.
    inversion Ha as [| | l0 j c0 i0 s1 v1 Hnth Hc0]; subst. clear Ha.
    assert (Hgen : forall k, for_subcomponent l i k d = Done d' ->
              assigned c0 (IndexList (full_index_of i ++ [k + j])) s v ->
              d' !! s = Some v); [| now apply (Hgen 0%nat)].
    clear Hrun Hc0. revert d j Hnth Hnd.
    induction IH as [| c l Hc _ IHl]; intros d j Hnth Hnd k Hrun Hc0.
    + destruct j; discriminate.
    + cbn [flat_map] in Hnd. apply NoDup_app_In in Hnd as (Hndc & Hndl & Hdisj).
      cbn in Hrun.
      destruct (_init_component_to_index__recursive c d _) as [d1 | e d1] eqn:Hd1;
        [| discriminate].
      destruct j as [| j]; cbn in Hnth.
      * injection Hnth as ->. rewrite Nat.add_0_r in Hc0.
        pose proof (for_subcomponent_other l d1 i (S k) s
                      (Hdisj s (assigned_names _ _ _ _ Hc0))) as Hkeep.
        rewrite Hrun in Hkeep. cbn in Hkeep. rewrite Hkeep.
        eapply Hc; eassumption.
      * apply (IHl d1 j Hnth Hndl (S k) Hrun).
        now replace (S k + j)%nat with (k + S j)%nat by lia.
  - rewrite recursive_list in Hrun. cbn [names] in Hnd.
    inversion Ha as [| l0 c0 i0 s1 v1 Hin Hc0 |]; subst. clear Ha.
    revert d Hin Hnd Hrun.
    induction IH as [| c l Hc _ IHl]; intros d Hin Hnd Hrun.
    + destruct Hin.
    + cbn [flat_map] in Hnd. apply NoDup_app_In in Hnd as (Hndc & Hndl & Hdisj).
      cbn in Hrun.
      destruct (_init_component_to_index__recursive c d i) as [d1 | e d1] eqn:Hd1;
        [| discriminate].
      destruct Hin as [<- | Hin'].
      * pose proof (for_component_other l d1 i s
                      (Hdisj s (assigned_names _ _ _ _ Hc0))) as Hkeep.
        rewrite Hrun in Hkeep. cbn in Hkeep. rewrite Hkeep.
        eapply Hc; eassumption.
      * now apply (IHl d1).
Qed.

Lemma for_enumerate_assigns l :
  forall d k d', for_enumerate l k d = Done d' ->
    NoDup (flat_map names l) ->
    forall j c s v, nth_error l j = Some c ->
      assigned c (IndexInt (k + j)) s v -> d' !! s = Some v.
Proof.
  induction l as [| c0 l IH]; intros d k d' Hrun Hnd j c s v Hnth Ha.
  - destruct j; discriminate.
  - cbn [flat_map] in Hnd. apply NoDup_app_In in Hnd as (Hndc & Hndl & Hdisj).
    cbn in Hrun.
    destruct (_init_component_to_index__recursive c0 d _) as [d1 | e d1] eqn:Hd1;
      [| discriminate].
    destruct j as [| j]; cbn in Hnth.
    + injection Hnth as ->. rewrite Nat.add_0_r in Ha.
      pose proof (for_enumerate_other l d1 (S k) s
                    (Hdisj s (assigned_names _ _ _ _ Ha))) as Hkeep.
      rewrite Hrun in Hkeep. cbn in Hkeep. rewrite Hkeep.
      eapply recursive_assigns; eassumption.
    + apply (IH d1 (S k) d' Hrun Hndl j c s v Hnth).
      now replace (S k + j)%nat with (k + S j)%nat by lia.
Qed.

Lemma names_of_strings (ns : list string) : flat_map names (map PyStr ns) = ns.
Proof. induction ns as [| a ns IH]; cbn; [reflexivity | now rewrite IH]. Qed.

Lemma for_enumerate_strings (ns : list string) :
  forall k d, exists d',
    for_enumerate (map PyStr ns) k d = Done d' /\
    forall i s, ns !! i = Some s -> (forall j, (i < j)%nat -> ns !! j <> Some s) ->
      d' !! s = Some (PyInt (Z.of_nat (k + i))).
Proof.
  induction ns as [| a ns IH]; intros k d.
  - exists d. split; [reflexivity |]. intros i s H. discriminate.
  - cbn. destruct (IH (S k) (<[a := PyInt (Z.of_nat k)]> d)) as (d' & Hrun & Hlast).
    exists d'. split; [exact Hrun |].
    intros [| i] s Hi Hlater; cbn in Hi.
    + injection Hi as ->. rewrite Nat.add_0_r.
      pose proof (for_enumerate_other (map PyStr ns)
                    (<[s := PyInt (Z.of_nat k)]> d) (S k) s) as Hkeep.
      rewrite Hrun, names_of_strings in Hkeep. cbn in Hkeep.
      rewrite Hkeep; [apply lookup_insert_eq |].
      intros Hin. apply list_elem_of_In, list_elem_of_lookup_1 in Hin as (j & Hj).
      apply (Hlater (S j)); [lia | exact Hj].
    + replace (k + S i)%nat with (S k + i)%nat by lia.
      apply Hlast; [exact Hi |].
      intros j Hj. apply (Hlater (S j)). lia.
Qed.

Section WrappingFacts.

Context {D Args Dofs : Type} {dolfin : Dolfin D Args Dofs}.

Lemma FunctionSpace_list (args : Args) (kwargs : gmap string pyarg) l :
  kwargs !! "components" = Some (Value (PyList l)) ->
  FunctionSpace args kwargs =
    _enable_string_components (Value (PyList l))
      (plain (dolfin_FunctionSpace args (delete "components" kwargs))).
Proof. intros H. unfold FunctionSpace. now rewrite H. Qed.

(** [_init_component_to_index] on a list completes exactly when every
    component is a string or a list or tuple of such, and then the names of
    the components are the keys of [_component_to_index]; otherwise the
    assertion fails with the attribute set and no method bound. *)
Theorem init_component_to_index_completes (l : list pyvalue) (fs : function_space D) :
  if forallb well_formed l
  then exists d,
    _init_component_to_index (Value (PyList l)) fs
      = Done (bind_methods (set_component_to_index d fs)) /\
    dom d = list_to_set (flat_map names l)
  else exists d,
    _init_component_to_index (Value (PyList l)) fs
      = Raised AssertionError (set_component_to_index d fs).
Proof.
  pose proof (for_enumerate_completes l 0 ∅) as H. cbn.
  destruct (forallb well_formed l).
  - destruct H as (d & -> & Hdom). exists d. split; [reflexivity |].
    now rewrite Hdom, dom_empty_L, (left_id_L ∅ (∪)).
  - destruct H as (d & ->). now exists d.
Qed.

(** When no name is given twice, every name is mapped to the position of
    its component, followed under a tuple by the positions inside it. *)
Theorem init_component_to_index_assigns (l : list pyvalue) (fs fs' : function_space D)
  (j : nat) (c : pyvalue) (s : string) (v : pyvalue) :
  _init_component_to_index (Value (PyList l)) fs = Done fs' ->
  NoDup (flat_map names l) ->
  nth_error l j = Some c ->
  assigned c (IndexInt j) s v ->
  component_to_index fs' s = Ok v.
Proof.
  intros Hrun Hnd Hnth Ha. cbn in Hrun.
  destruct (for_enumerate l 0 ∅) as [d | e d] eqn:Hd; [| discriminate].
  injection Hrun as <-. unfold component_to_index. cbn.
  now rewrite (for_enumerate_assigns l ∅ 0%nat d Hd Hnd j c s v Hnth Ha).
Qed.

(** In a list of names a name given more than once keeps the position of
    its last occurrence. *)
Theorem init_component_to_index_last_occurrence (ns : list string)
  (fs : function_space D) (i : nat) (s : string) :
  ns !! i = Some s ->
  (forall j, (i < j)%nat -> ns !! j <> Some s) ->
  exists fs',
    _init_component_to_index (Value (PyList (map PyStr ns))) fs = Done fs' /\
    component_to_index fs' s = Ok (PyInt (Z.of_nat i)).
Proof.
  intros Hi Hlater. cbn.
  destruct (for_enumerate_strings ns 0 ∅) as (d & -> & Hlast).
  eexists. split; [reflexivity |]. unfold component_to_index. cbn.
  now rewrite (Hlast i s Hi Hlater).
Qed.

(** On a space created with [components], [sub] by name gives what
    dolfin gives for the stored index ([sub] for an [int],
    [extract_sub_space] for a tuple), tagged with that one name, and
    [extract_sub_space] by name hands the stored index, [int] or tuple, to
    dolfin's [extract_sub_space]; dolfin's constructor does not see the
    keyword [components]. *)
Theorem sub_by_name (args : Args) (kwargs : gmap string pyarg) (l : list pyvalue)
  (V : function_space D) (j : nat) (c : pyvalue) (s : string) (v : pyvalue) :
  kwargs !! "components" = Some (Value (PyList l)) ->
  FunctionSpace args kwargs = Done V ->
  NoDup (flat_map names l) ->
  nth_error l j = Some c ->
  assigned c (IndexInt j) s v ->
  dolfin_space V = dolfin_FunctionSpace args (delete "components" kwargs) /\
  sub V (PyStr s) =
    match
      match v with
      | PyInt _ => dolfin_sub (dolfin_space V) v
      | _ => dolfin_extract_sub_space (dolfin_space V) v
      end
    with
    | Some d => Ok (bind_methods (set_component_to_index {[s := PyNone]} (plain d)), V)
    | None => Err FsDolfinError
    end /\
  extract_sub_space V (PyStr s) =
    match dolfin_extract_sub_space (dolfin_space V) v with
    | Some d => Ok (bind_methods (set_component_to_index {[s := PyNone]} (plain d)))
    | None => Err FsDolfinError
    end.
Proof.
  intros Hk Hrun Hnd Hnth Ha. rewrite (FunctionSpace_list _ _ _ Hk) in Hrun.
  unfold _enable_string_components in Hrun. cbn in Hrun.
  destruct (for_enumerate l 0 ∅) as [d | e d] eqn:Hd; [| discriminate].
  injection Hrun as <-. split; [reflexivity |].
  pose proof (for_enumerate_assigns l ∅ 0%nat d Hd Hnd j c s v Hnth Ha) as Hs.
  destruct (assigned_stored _ _ _ _ Ha) as ([n | t] & ->);
    unfold sub, extract_sub_space; cbn; rewrite Hs; cbn.
  - split; [now destruct (dolfin_sub _ _) | now destruct (dolfin_extract_sub_space _ _)].
  - split; now destruct (dolfin_extract_sub_space _ _).
Qed.

(** On a space created with [components], [sub] raises [KeyError] for a
    string exactly when the string is not the name of a component. *)
Theorem sub_unknown_name (args : Args) (kwargs : gmap string pyarg)
  (l : list pyvalue) (V : function_space D) (s : string) :
  kwargs !! "components" = Some (Value (PyList l)) ->
  FunctionSpace args kwargs = Done V ->
  sub V (PyStr s) = Err (FsKeyError s) <-> ~ In s (flat_map names l).
Proof.
  intros Hk Hrun. rewrite (FunctionSpace_list _ _ _ Hk) in Hrun.
  unfold _enable_string_components in Hrun. cbn in Hrun.
  pose proof (for_enumerate_completes l 0 ∅) as Hc.
  destruct (for_enumerate l 0 ∅) as [d | e d] eqn:Hd; [| discriminate].
  injection Hrun as <-.
  destruct (forallb well_formed l); [| destruct Hc as (? & ?); discriminate].
  destruct Hc as (d' & [= <-] & Hdom).
  rewrite dom_empty_L, (left_id_L ∅ (∪)) in Hdom.
  assert (Hin : In s (flat_map names l) <-> is_Some (d !! s)).
  { rewrite <- list_elem_of_In, <- elem_of_dom, Hdom. symmetry. apply elem_of_list_to_set. }
  unfold sub, extract_sub_space. cbn.
  destruct (d !! s) as [v |] eqn:Hs.
  - split.
    + destruct v as [| n | s' | t | t]; cbn; try discriminate.
      * now destruct (dolfin_sub _ _).
      * now destruct (dolfin_extract_sub_space _ _).
    + intros Hn. exfalso. apply Hn, Hin. eauto.
  - split; [| reflexivity]. intros _ H. apply Hin in H as (? & ?). discriminate.
Qed.

(** On a space created with [components], indices go through as they are
    and give spaces without names: an [int] goes to dolfin's [sub], a tuple
    to dolfin's [extract_sub_space] (not to dolfin's [sub]), and [None] or a
    list fails an assertion before dolfin is called. *)
Theorem sub_by_index (args : Args) (kwargs : gmap string pyarg) (l : list pyvalue)
  (V : function_space D) (i : pyvalue) :
  kwargs !! "components" = Some (Value (PyList l)) ->
  FunctionSpace args kwargs = Done V ->
  match i with
  | PyInt _ =>
      sub V i = match dolfin_sub (dolfin_space V) i with
                | Some d => Ok (plain d, V)
                | None => Err FsDolfinError
                end
  | PyTuple _ =>
      sub V i = match dolfin_extract_sub_space (dolfin_space V) i with
                | Some d => Ok (plain d, V)
                | None => Err FsDolfinError
                end
  | PyNone | PyList _ => sub V i = Err FsAssertionError
  | PyStr _ => True
  end.
Proof.
  intros Hk Hrun. rewrite (FunctionSpace_list _ _ _ Hk) in Hrun.
  unfold _enable_string_components in Hrun. cbn in Hrun.
  destruct (for_enumerate l 0 ∅) as [d | e d]; [| discriminate].
  injection Hrun as <-.
  destruct i as [| n | s | t | t]; unfold sub, extract_sub_space; cbn;
    try reflexivity; try exact I.
  - now destruct (dolfin_sub _ _).
  - now destruct (dolfin_extract_sub_space _ _).
Qed.

(** A space that carries names hands them on to every space obtained by
    [collapse], but not the conversion of names in [sub]: on the collapsed
    space a string goes to dolfin's [sub] as it is. *)
Theorem collapse_carries (d : gmap string pyvalue) (fs : function_space D)
  (collapsed_dofs : bool) :
  carries d fs ->
  exists output,
    collapse fs collapsed_dofs
      = Ok (output,
            if collapsed_dofs then Some (dolfin_collapsed_dofs (dolfin_space fs))
            else None) /\
    carries d output /\
    dolfin_space output = dolfin_collapse (dolfin_space fs) /\
    forall s, sub output (PyStr s) =
      match dolfin_sub (dolfin_space output) (PyStr s) with
      | Some d' => Ok (plain d', output)
      | None => Err FsDolfinError
      end.
Proof.
  intros (Hd & Hm & Hc). unfold collapse. rewrite Hc. cbn. rewrite Hd.
  eexists. split; [reflexivity |]. split; [now repeat split |].
  split; reflexivity.
Qed.

(** When the index stored for a name is [None], [sub] by that name
    returns the space itself with its [collapse] replaced: collapsing then
    gives the same object, asking for the collapsed DOFs fails an assertion,
    and the names are no longer handed on. *)
Theorem sub_none_index (args : Args) (kwargs : gmap string pyarg)
  (d : gmap string pyvalue) (V : function_space D) (s : string) :
  kwargs !! "components" = Some (Dict d) ->
  FunctionSpace args kwargs = Done V ->
  d !! s = Some PyNone ->
  let V' := set_collapse SelfCollapse V in
  sub V (PyStr s) = Ok (V', V') /\
  sub V' (PyStr s) = Ok (V', V') /\
  collapse V' false = Ok (V', None) /\
  collapse V' true = Err FsAssertionError.
Proof.
  intros Hk Hrun Hs. unfold FunctionSpace in Hrun. rewrite Hk in Hrun. cbn in Hrun.
  injection Hrun as <-. unfold sub, collapse. cbn. rewrite Hs.
  repeat split.
Qed.

End WrappingFacts.

Lemma init_component_to_index_assigns_witness :
  component_to_index
    (state_of (_init_component_to_index (Value (PyList stokes_components))
                 (plain (D := list Z) [])))
    "uy" = Ok (PyTuple [PyInt 0; PyInt 1]).
Proof.
  apply (init_component_to_index_assigns stokes_components (plain [])
           _ 0 (PyTuple [PyStr "ux"; PyStr "uy"]) "uy" (PyTuple [PyInt 0; PyInt 1])).
  - vm_compute. reflexivity.
  - apply (bool_decide_unpack _). vm_compute. reflexivity.
  - reflexivity.
  - apply (assigned_tuple _ 1 (PyStr "uy") (IndexInt 0) "uy").
    + reflexivity.
    + apply (assigned_str "uy" (IndexList [0; 1]%nat)).
Defined.

Lemma init_component_to_index_last_occurrence_witness :
  exists fs',
    _init_component_to_index (Value (PyList (map PyStr ["u"; "p"; "u"])))
      (plain (D := list Z) []) = Done fs' /\
    component_to_index fs' "u" = Ok (PyInt 2).
Proof.
  apply (init_component_to_index_last_occurrence ["u"; "p"; "u"] (plain []) 2 "u").
  - reflexivity.
  - intros [| [| [| j]]] Hj; try lia; discriminate.
Defined.

Lemma sub_by_name_witness :
  sub stokes_space (PyStr "uy")
  = Ok (bind_methods (set_component_to_index {[ "uy" := PyNone ]} (plain [0; 1]%Z)),
        stokes_space).
Proof.
  destruct (sub_by_name tt stokes_kwargs stokes_components stokes_space 0
              (PyTuple [PyStr "ux"; PyStr "uy"]) "uy" (PyTuple [PyInt 0; PyInt 1]))
    as (_ & H & _).
  - vm_compute. reflexivity.
  - vm_compute. reflexivity.
  - apply (bool_decide_unpack _). vm_compute. reflexivity.
  - reflexivity.
  - apply (assigned_tuple _ 1 (PyStr "uy") (IndexInt 0) "uy").
    + reflexivity.
    + apply (assigned_str "uy" (IndexList [0; 1]%nat)).
  - exact H.
Defined.

Lemma sub_unknown_name_witness :
  sub stokes_space (PyStr "q") = Err (FsKeyError "q") <->
  ~ In "q" (flat_map names stokes_components).
Proof.
  apply (sub_unknown_name tt stokes_kwargs stokes_components stokes_space "q").
  - vm_compute. reflexivity.
  - vm_compute. reflexivity.
Defined.

Lemma collapse_carries_witness :
  exists output,
    collapse stokes_space true = Ok (output, Some tt) /\
    carries (default ∅ (_component_to_index stokes_space)) output /\
    dolfin_space output = [] /\
    forall s, sub output (PyStr s) = Err FsDolfinError.
Proof.
  refine (collapse_carries (default ∅ (_component_to_index stokes_space))
            stokes_space true _).
  vm_compute. repeat split.
Defined.

Lemma sub_none_index_witness :
  sub pressure_space (PyStr "p")
  = Ok (set_collapse SelfCollapse pressure_space,
        set_collapse SelfCollapse pressure_space) /\
  sub (set_collapse SelfCollapse pressure_space) (PyStr "p")
  = Ok (set_collapse SelfCollapse pressure_space,
        set_collapse SelfCollapse pressure_space) /\
  collapse (set_collapse SelfCollapse pressure_space) false
  = Ok (set_collapse SelfCollapse pressure_space, None) /\
  collapse (set_collapse SelfCollapse pressure_space) true = Err FsAssertionError.
Proof.
  apply (sub_none_index tt pressure_kwargs {[ "p" := PyNone ]} pressure_space "p").
  - vm_compute. reflexivity.
  - vm_compute. reflexivity.
  - vm_compute. reflexivity.
Defined.

Lemma sub_by_index_witness :
  sub stokes_space (PyTuple [PyInt 0; PyInt 1]) = Ok (plain [0; 1]%Z, stokes_space).
Proof.
  exact (sub_by_index tt stokes_kwargs stokes_components stokes_space
           (PyTuple [PyInt 0; PyInt 1]) eq_refl eq_refl).
Defined.

End FunctionSpaceFacts.
